(** * Catppuccin palette customisation: the edit engine of [main.py]

    A shallow embedding of [main.py]: the edit rules ([Edit]), their
    evaluation ([Edit.__call__]), the selector matching and the variant-level
    engine ([Palette.edit]), the palette-set traversal, the decoder's required
    fields and the serializer of both modes.

    Python's [float] is IEEE 754 binary64, which is what Rocq's primitive
    [float] is. [msgspec.Struct] instances are mutable objects, and live in a
    store addressed by references; a computation is a function on stores that
    ends with a value or with an exception. The libraries that [main.py]
    calls are parameters: the colour engine (coloraide) is the class
    [ColorEngine], the conversions that msgspec makes of single JSON values
    the class [Decoder]. *)

From Stdlib Require Import Floats.
From stdpp Require Import gmap strings list.

Open Scope string_scope.
Open Scope list_scope.

(** ** Exceptions and results *)

(** The exceptions that the modelled code paths can raise. *)
Inductive exn : Type :=
| ZeroDivisionError                 (* float division by zero *)
| ValueError (what : string)        (* coloraide: unknown space or channel, bad colour string *)
| ValidationError (what : string)   (* msgspec: a document that does not fit the type *)
| NotImplementedError.              (* JsonEncoder.enc_hook *)

Definition result (A : Type) : Type := exn + A.

Abbreviation raise := inl (only parsing).
Abbreviation ok := inr (only parsing).

Definition rbind {A B} (r : result A) (k : A -> result B) : result B :=
  match r with
  | inl e => inl e
  | inr a => k a
  end.

(** ** Python floats *)

(** [a / b] on Python floats: a zero divisor (of either sign) raises, every
    other divisor gives the IEEE quotient. *)
Definition float_truediv (a b : float) : result float :=
  if (b =? 0)%float then raise ZeroDivisionError else ok (a / b)%float.

(** ** Edit rules *)

Module Edit.

(** [type: Literal['value', 'add', 'multiply']] *)
Inductive kind : Type := value_ | add | multiply.

Record t : Type := mk {
  variable : string;
  value : float;
  type : kind;                (* default 'value' *)
  name : option string;       (* default None *)
  accent : option bool;       (* default None *)
  _inverse_light : bool       (* default False *)
}.

(** [self.variable in {'l', 'lightness'}] *)
Definition lightness_like (v : string) : bool :=
  bool_decide (v = "l") || bool_decide (v = "lightness").

(** [Edit.__call__] *)
Definition __call__ (self : t) (value : float) : result float :=
  let inverse := _inverse_light self && lightness_like (variable self) in
  match type self with
  | value_ => ok (Edit.value self)
  | add =>
      let v := if inverse then (- Edit.value self)%float else Edit.value self in
      ok (value + v)%float
  | multiply =>
      rbind (if inverse then float_truediv 1 (Edit.value self) else ok (Edit.value self))
            (fun v => ok (value * v)%float)
  end.

(** [msgspec.structs.replace(x, _inverse_light=inverse)]: the fields of a new
    struct, the other fields copied from [x]. *)
Definition replace_inverse_light (x : t) (inverse : bool) : t :=
  {| variable := variable x; value := value x; type := type x;
     name := name x; accent := accent x; _inverse_light := inverse |}.

(** [a == b] where [a] is an optional selector and [b] a value of the
    selected kind: [None] equals no string and no bool. *)
Definition selects {A} `{EqDecision A} (a : option A) (b : A) : bool :=
  match a with
  | None => false
  | Some x => bool_decide (x = b)
  end.

(** The test of [Palette.edit], line 91:
    [edit.name == name or edit.accent == color.accent]. *)
Definition applies (edit : t) (name : string) (accent : bool) : bool :=
  selects (Edit.name edit) name || selects (Edit.accent edit) accent.

End Edit.

(** ** JSON documents *)

(** The tree of a JSON document. The decoder reads such a tree and the
    encoder builds one; [msgspec.json.encode] followed by
    [msgspec.json.format] prints it, so two outputs with the same tree are the
    same bytes. *)
#[local] Set Warnings "-register-all".
Inductive json : Type :=
| JNull
| JBool (b : bool)
| JNum (x : float)
| JStr (s : string)
| JArr (items : list json)
| JObj (members : list (string * json)).

(** The member of a JSON object under a key; of members with the same key the
    last one counts. The decoder is modelled on what it keeps of a document:
    msgspec decodes the earlier occurrences of a repeated key as well, and
    raises if one of them does not fit, which the model does not follow. *)
Fixpoint member (key : string) (members : list (string * json)) : option json :=
  match members with
  | [] => None
  | (k, v) :: rest =>
      match member key rest with
      | Some v' => Some v'
      | None => if bool_decide (k = key) then Some v else None
      end
  end.

(** ** Python dicts with string keys *)

(** A [dict] keeps its items in insertion order, with one item per key. *)
Abbreviation dict V := (list (string * V)).

(** [d[k] = v]: an existing key keeps its place and takes the new value, a
    new key goes to the end. *)
Fixpoint dict_setitem {V} (d : dict V) (k : string) (v : V) : dict V :=
  match d with
  | [] => [(k, v)]
  | (k', v') :: rest =>
      if bool_decide (k' = k) then (k', v) :: rest
      else (k', v') :: dict_setitem rest k v
  end.

(** [d.get(k)] *)
Fixpoint dict_get {V} (d : dict V) (k : string) : option V :=
  match d with
  | [] => None
  | (k', v) :: rest => if bool_decide (k' = k) then Some v else dict_get rest k
  end.

(** [dict(items)] *)
Definition dict_of_items {V} (items : list (string * V)) : dict V :=
  foldl (fun d kv => dict_setitem d kv.1 kv.2) [] items.

(** [d.items()] and [d.values()] *)
Definition dict_items {V} (d : dict V) : list (string * V) := d.
Definition dict_values {V} (d : dict V) : list V := snd <$> d.

(** ** The collaborators: coloraide and msgspec *)

(** The colour engine. [_Color] is the type of coloraide colour objects; each
    operation is the method of the same name, failing with the exception it
    raises. [_Color_setitem c name v] is the colour after [c[name] = v].
    [_Color_str] is [str(c)] for the colours that print: it is taken to be
    total, where coloraide raises on a channel that is not finite. *)
Class ColorEngine : Type := {
  _Color : Type;
  _DEFAULT_COLOR : _Color;                              (* _Color('okhsl', [0, 0, 0], alpha=0) *)
  _Color_new : string -> result _Color;                 (* _Color(s) *)
  _Color_convert : _Color -> string -> result _Color;   (* c.convert(space) *)
  _Color_get : _Color -> string -> result float;        (* c.get(name) *)
  _Color_setitem : _Color -> string -> float -> result _Color;
  _Color_to_string_hex : _Color -> result string;       (* c.to_string(hex=True) *)
  _Color_str : _Color -> string                         (* str(c) *)
}.

(** [c.set(name, f)] with a callable [f]: the channel is read, [f] is
    called on its value and the result is stored in the channel. *)
Definition _Color_set `{ColorEngine} (c : _Color) (name : string)
    (f : float -> result float) : result _Color :=
  rbind (_Color_get c name) (fun v =>
  rbind (f v) (fun v' => _Color_setitem c name v')).

(** The conversions of single JSON values that the non-strict decoder
    ([strict=False]) makes for a [str] and for a [bool] field. *)
Class Decoder : Type := {
  decode_str : json -> result string;
  decode_bool : json -> result bool
}.

(** ** Structs *)

(** A reference to a struct instance in the store. *)
Definition ref : Type := positive.

Module Config.

Record t : Type := mk {
  color_space : string;         (* default 'okhsl' *)
  inverse_edit_light : bool;    (* default True *)
  edits : list ref              (* the [Edit] objects, default [] *)
}.

End Config.

Module Color.

Record t (C : Type) : Type := mk {
  hex : string;
  accent : bool;
  color : C
}.
Arguments mk {C}.
Arguments hex {C}.
Arguments accent {C}.
Arguments color {C}.

(** [self.color = c] and [self.hex = h] *)
Definition with_color {C} (self : t C) (c : C) : t C :=
  {| hex := hex self; accent := accent self; color := c |}.
Definition with_hex {C} (self : t C) (h : string) : t C :=
  {| hex := h; accent := accent self; color := color self |}.

End Color.

Module Palette.

(** [colors] maps a colour name to a [Color] object ([V] is [ref]), and in
    the struct that [to_hex] builds to a string ([V] is [string]). *)
Record t (V : Type) : Type := mk {
  name : string;
  dark : bool;
  colors : dict V
}.
Arguments mk {V}.
Arguments name {V}.
Arguments dark {V}.
Arguments colors {V}.

End Palette.

Module Palettes.

(** The four slots hold [Palette] objects ([P] is [ref]); in the struct that
    [JsonEncoder._palettes] builds a slot holds what the keyword arguments of
    [replace] put there. *)
Record t (P : Type) : Type := mk {
  version : string;
  latte : P;
  frappe : P;
  macchiato : P;
  mocha : P
}.
Arguments mk {P}.
Arguments version {P}.
Arguments latte {P}.
Arguments frappe {P}.
Arguments macchiato {P}.
Arguments mocha {P}.

(** The types of the fields, as [msgspec.structs.fields] reports them. *)
Inductive field_type : Type := ty_str | ty_Palette.

(** [msgspec.structs.fields(self)]: name and type, in declaration order. *)
Definition fields : list (string * field_type) :=
  [("version", ty_str); ("latte", ty_Palette); ("frappe", ty_Palette);
   ("macchiato", ty_Palette); ("mocha", ty_Palette)].

(** [getattr(self, name)] for a field that holds a palette. *)
Definition getattr {P} (self : t P) (name : string) : option P :=
  if bool_decide (name = "latte") then Some (latte self)
  else if bool_decide (name = "frappe") then Some (frappe self)
  else if bool_decide (name = "macchiato") then Some (macchiato self)
  else if bool_decide (name = "mocha") then Some (mocha self)
  else None.

(** [Palettes.palettes] *)
Definition palettes {P} (self : t P) : list (string * P) :=
  omap (fun field =>
          match field.2 with
          | ty_Palette => pair field.1 <$> getattr self field.1
          | ty_str => None
          end) fields.

(** [msgspec.structs.replace(p, **kwargs)]: a slot named in [kwargs] takes
    the value given there, every other field is copied. *)
Definition replace {P V} (p : t P) (kwargs : dict V) : t (P + V) :=
  let slot name old :=
    match dict_get kwargs name with
    | Some v => inr v
    | None => inl old
    end in
  {| version := version p;
     latte := slot "latte" (latte p);
     frappe := slot "frappe" (frappe p);
     macchiato := slot "macchiato" (macchiato p);
     mocha := slot "mocha" (mocha p) |}.

End Palettes.

(** ** The store and the monad of the program *)

(** The struct instances that exist, by reference, and the files written so
    far (the suffix token of the path and the document). *)
Record store `{ColorEngine} : Type := mkStore {
  edit_objs : gmap ref Edit.t;
  color_objs : gmap ref (Color.t _Color);
  palette_objs : gmap ref (Palette.t ref);
  written : list (string * json)
}.
Arguments mkStore {_}.

(** A computation runs in a store and ends in a store, with a value or with
    an exception; a store changed before an exception stays changed. [None]
    means that the computation used a reference to nothing, which no Python
    run does. *)
Definition M `{ColorEngine} (A : Type) : Type := store -> option (store * result A).

#[global] Instance M_ret `{ColorEngine} : MRet M :=
  fun A a s => Some (s, ok a).

#[global] Instance M_bind `{ColorEngine} : MBind M :=
  fun A B k m s =>
    match m s with
    | None => None
    | Some (s', inl e) => Some (s', inl e)
    | Some (s', inr a) => k a s'
    end.

Section Program.
Context `{CE : ColorEngine} `{DE : Decoder}.

(** A pure step that may raise. *)
Definition lift {A} (r : result A) : M A := fun s => Some (s, r).

(** [for x in l: body(x)] *)
Fixpoint for_each {A} (l : list A) (body : A -> M unit) : M unit :=
  match l with
  | [] => mret tt
  | x :: rest => body x ;; for_each rest body
  end.

(** [[f(x) for x in l]], evaluated from left to right. *)
Fixpoint map_M {A B} (f : A -> M B) (l : list A) : M (list B) :=
  match l with
  | [] => mret []
  | x :: rest => y ← f x; ys ← map_M f rest; mret (y :: ys)
  end.

(** *** Reading, writing and creating objects *)

Definition get_edit (r : ref) : M Edit.t :=
  fun s => e ← edit_objs s !! r; Some (s, ok e).

Definition get_color (r : ref) : M (Color.t _Color) :=
  fun s => c ← color_objs s !! r; Some (s, ok c).

Definition get_palette (r : ref) : M (Palette.t ref) :=
  fun s => p ← palette_objs s !! r; Some (s, ok p).

Definition put_color (r : ref) (c : Color.t _Color) : M unit :=
  fun s => Some (mkStore (edit_objs s) (<[r := c]> (color_objs s))
                         (palette_objs s) (written s), ok tt).

Definition new_edit (e : Edit.t) : M ref :=
  fun s => let r := fresh (dom (edit_objs s)) in
           Some (mkStore (<[r := e]> (edit_objs s)) (color_objs s)
                         (palette_objs s) (written s), ok r).

Definition new_color (c : Color.t _Color) : M ref :=
  fun s => let r := fresh (dom (color_objs s)) in
           Some (mkStore (edit_objs s) (<[r := c]> (color_objs s))
                         (palette_objs s) (written s), ok r).

Definition new_palette (p : Palette.t ref) : M ref :=
  fun s => let r := fresh (dom (palette_objs s)) in
           Some (mkStore (edit_objs s) (color_objs s)
                         (<[r := p]> (palette_objs s)) (written s), ok r).

Definition write_file (suffix : string) (buf : json) : M unit :=
  fun s => Some (mkStore (edit_objs s) (color_objs s) (palette_objs s)
                         (written s ++ [(suffix, buf)]), ok tt).

(** *** [Color] *)

(** [Color.__post_init__] *)
Definition Color___post_init__ (self : ref) : M unit :=
  c ← get_color self;
  k ← lift (rbind (_Color_new (Color.hex c)) (fun k => _Color_convert k "okhsl"));
  put_color self (Color.with_color c k).

(** [Color.edit], with an [Edit] object as the callable [value]. *)
Definition Color_edit (self : ref) (key : string) (value : ref) : M unit :=
  c ← get_color self;
  f ← get_edit value;
  k ← lift (_Color_set (Color.color c) key (Edit.__call__ f));
  put_color self (Color.with_color c k).

(** [Color.update] *)
Definition Color_update (self : ref) : M unit :=
  c ← get_color self;
  h ← lift (rbind (_Color_convert (Color.color c) "srgb") _Color_to_string_hex);
  put_color self (Color.with_hex c h).

(** *** [Palette] *)

(** [Palette.to_hex]: the new struct that [replace] returns. *)
Definition Palette_to_hex (self : ref) : M (Palette.t string) :=
  p ← get_palette self;
  items ← map_M (fun '(name, color) =>
                   c ← get_color color;
                   mret (name, Color.hex c +:+ "ff"))
                (dict_items (Palette.colors p));
  mret (Palette.mk (Palette.name p) (Palette.dark p) (dict_of_items items)).

(** Lines 82 to 85 of [Palette.edit]: the flag, and the tuple of copies of
    the rules that carry it. *)
Definition Palette_edit_inverse (self : Palette.t ref) (conf : Config.t) : bool :=
  Config.inverse_edit_light conf && negb (Palette.dark self).

Definition Palette_edit_edits (self : ref) (conf : Config.t) : M (list ref) :=
  p ← get_palette self;
  let inverse := Palette_edit_inverse p conf in
  map_M (fun x => e ← get_edit x; new_edit (Edit.replace_inverse_light e inverse))
        (Config.edits conf).

(** Lines 88 to 92: what the first loop does with one colour. *)
Definition Palette_edit_color (conf : Config.t) (edits : list ref)
    (name : string) (color : ref) : M unit :=
  c ← get_color color;
  k ← lift (_Color_convert (Color.color c) (Config.color_space conf));
  put_color color (Color.with_color c k);;
  for_each edits (fun edit =>
    e ← get_edit edit;
    c ← get_color color;
    if Edit.applies e name (Color.accent c)
    then Color_edit color (Edit.variable e) edit
    else mret tt).

(** Lines 87 to 95: the two loops. *)
Definition Palette_edit_loops (self : ref) (conf : Config.t) (edits : list ref)
    : M unit :=
  p ← get_palette self;
  for_each (dict_items (Palette.colors p))
           (fun '(name, color) => Palette_edit_color conf edits name color);;
  p ← get_palette self;
  for_each (dict_values (Palette.colors p)) Color_update.

(** [Palette.edit] *)
Definition Palette_edit (self : ref) (conf : Config.t) : M unit :=
  edits ← Palette_edit_edits self conf;
  Palette_edit_loops self conf edits.

(** *** [Palettes] and [read_palettes] *)

(** A required field of a struct: its member in the object, decoded; an
    object without the member does not decode. *)
Definition required {A} (name : string) (members : list (string * json))
    (dec : json -> M A) : M A :=
  match member name members with
  | Some v => dec v
  | None => lift (raise (ValidationError ("Object missing required field " +:+ name)))
  end.

(** An exception of [__post_init__] reaches the caller of the decoder as a
    [ValidationError]. *)
Definition in_post_init (m : M unit) : M unit :=
  fun s =>
    match m s with
    | Some (s', inl (ValueError what)) => Some (s', inl (ValidationError what))
    | other => other
    end.

(** Decoding a [Color]: [hex] and [accent] are required, and no JSON value
    is a [_Color], so a member [color] does not decode. *)
Definition decode_Color (j : json) : M ref :=
  match j with
  | JObj members =>
      hex ← required "hex" members (fun v => lift (decode_str v));
      accent ← required "accent" members (fun v => lift (decode_bool v));
      match member "color" members with
      | Some _ => lift (raise (ValidationError "Expected _Color"))
      | None =>
          self ← new_color (Color.mk hex accent _DEFAULT_COLOR);
          in_post_init (Color___post_init__ self);;
          mret self
      end
  | _ => lift (raise (ValidationError "Expected object"))
  end.

(** Decoding [dict[str, Color]] *)
Definition decode_colors (j : json) : M (dict ref) :=
  match j with
  | JObj members =>
      items ← map_M (fun '(k, v) => c ← decode_Color v; mret (k, c)) members;
      mret (dict_of_items items)
  | _ => lift (raise (ValidationError "Expected object"))
  end.

(** Decoding a [Palette]: all three fields are required. *)
Definition decode_Palette (j : json) : M ref :=
  match j with
  | JObj members =>
      name ← required "name" members (fun v => lift (decode_str v));
      dark ← required "dark" members (fun v => lift (decode_bool v));
      colors ← required "colors" members decode_colors;
      new_palette (Palette.mk name dark colors)
  | _ => lift (raise (ValidationError "Expected object"))
  end.

(** Decoding a [Palettes]: no field has a default, all five are required. *)
Definition decode_Palettes (j : json) : M (Palettes.t ref) :=
  match j with
  | JObj members =>
      version ← required "version" members (fun v => lift (decode_str v));
      latte ← required "latte" members decode_Palette;
      frappe ← required "frappe" members decode_Palette;
      macchiato ← required "macchiato" members decode_Palette;
      mocha ← required "mocha" members decode_Palette;
      mret (Palettes.mk version latte frappe macchiato mocha)
  | _ => lift (raise (ValidationError "Expected object"))
  end.

(** [read_palettes], on the tree of the document at [path]. *)
Definition read_palettes (document : json) : M (Palettes.t ref) :=
  decode_Palettes document.

(** *** [JsonEncoder] *)

(** The objects that reach [enc_hook], those the encoder has no rule of its
    own for: a [_Color], or anything else. *)
Inductive foreign : Type :=
| a_Color (c : _Color)
| another.

(** [JsonEncoder.enc_hook] *)
Definition enc_hook (obj : foreign) : result string :=
  match obj with
  | a_Color c => ok (_Color_str c)
  | another => raise NotImplementedError
  end.

(** [return p]: the struct itself, each slot still a [Palette] object. *)
Definition Palettes_itself {V} (p : Palettes.t ref) : Palettes.t (ref + V) :=
  Palettes.replace p [].

(** [JsonEncoder._palettes] *)
Definition JsonEncoder__palettes (detailed : bool) (p : Palettes.t ref)
    : M (Palettes.t (ref + dict string)) :=
  if detailed then mret (Palettes_itself p)
  else
    kwargs ← map_M (fun '(k, v) => h ← Palette_to_hex v; mret (k, Palette.colors h))
                   (Palettes.palettes p);
    mret (Palettes.replace p (dict_of_items kwargs)).

(** [msgspec.json.encode] of a struct is the object of its fields, in
    declaration order; of a dict the object of its items. *)
Definition encode_Color (r : ref) : M json :=
  c ← get_color r;
  color ← lift (enc_hook (a_Color (Color.color c)));
  mret (JObj [("hex", JStr (Color.hex c)); ("accent", JBool (Color.accent c));
              ("color", JStr color)]).

Definition encode_Palette (r : ref) : M json :=
  p ← get_palette r;
  colors ← map_M (fun '(k, c) => j ← encode_Color c; mret (k, j))
                 (dict_items (Palette.colors p));
  mret (JObj [("name", JStr (Palette.name p)); ("dark", JBool (Palette.dark p));
              ("colors", JObj colors)]).

Definition encode_slot (v : ref + dict string) : M json :=
  match v with
  | inl r => encode_Palette r
  | inr d => mret (JObj ((fun kv => (kv.1, JStr kv.2)) <$> dict_items d))
  end.

(** [JsonEncoder.encode] *)
Definition JsonEncoder_encode (detailed : bool) (p : Palettes.t ref) : M json :=
  obj ← JsonEncoder__palettes detailed p;
  latte ← encode_slot (Palettes.latte obj);
  frappe ← encode_slot (Palettes.frappe obj);
  macchiato ← encode_slot (Palettes.macchiato obj);
  mocha ← encode_slot (Palettes.mocha obj);
  mret (JObj [("version", JStr (Palettes.version obj)); ("latte", latte);
              ("frappe", frappe); ("macchiato", macchiato); ("mocha", mocha)]).

(** [JsonEncoder.write]: the file is named by the output path and [suffix].
    A file is identified by [suffix] here; the derivation of its path from
    the output path (lines 139 and 140) is not modelled. *)
Definition JsonEncoder_write (detailed : bool) (p : Palettes.t ref)
    (suffix : string) : M unit :=
  buf ← JsonEncoder_encode detailed p;
  write_file suffix buf.

(** *** [main] *)

(** Lines 162 to 167 of [main]: the two snapshots around the edits. *)
Definition main_snapshots (detailed : bool) (conf : Config.t)
    (palettes : Palettes.t ref) : M unit :=
  JsonEncoder_write detailed palettes "original";;
  for_each (Palettes.palettes palettes)
           (fun '(_, palette) => Palette_edit palette conf);;
  JsonEncoder_write detailed palettes "customized".

(** [main], for the decoded configuration [conf] (its rules are in the store)
    and the tree of the input document. *)
Definition main (input_ : json) (conf : Config.t) (detailed : bool) : M unit :=
  palettes ← read_palettes input_;
  main_snapshots detailed conf palettes.

End Program.

(** * Vocabulary of the properties *)

Section Vocabulary.
Context `{CE : ColorEngine}.

(** The channels on which the inversion acts. *)
Definition lightness_set (v : string) : Prop := v = "l" \/ v = "lightness".

(** [runs m s Q]: from the store [s] the computation [m] ends, with a value or
    with an exception, and the final store and the outcome satisfy [Q]. *)
Definition runs {A} (m : M A) (s : store) (Q : store -> result A -> Prop) : Prop :=
  exists s' r, m s = Some (s', r) /\ Q s' r.

(** [edit_frame s s']: going from [s] to [s'], [Edit] objects were created
    and none was changed, no [Palette] object was touched, no file was
    written, and each [Color] object is still there with the accent flag it
    had (and no [Color] object was created). *)
Record edit_frame (s s' : store) : Prop := mk_edit_frame {
  frame_edits : edit_objs s ⊆ edit_objs s';
  frame_palettes : palette_objs s' = palette_objs s;
  frame_written : written s' = written s;
  frame_colors : forall r,
    option_Forall2 (fun c c' => Color.accent c' = Color.accent c)
                   (color_objs s !! r) (color_objs s' !! r)
}.

(** [derived s s' inverse x r]: [r] is a new object of [s'], the copy of the
    rule [x] of [s] with the flag [inverse]. *)
Definition derived (s s' : store) (inverse : bool) (x r : ref) : Prop :=
  edit_objs s !! r = None /\
  exists e, edit_objs s !! x = Some e /\
            edit_objs s' !! r = Some (Edit.replace_inverse_light e inverse).

(** The palette object exists, and so does every colour of its mapping. *)
Definition palette_ok (s : store) (self : ref) : Prop :=
  exists p, palette_objs s !! self = Some p /\
            forall k r, (k, r) ∈ Palette.colors p -> is_Some (color_objs s !! r).

(** Every rule of the configuration exists. *)
Definition rules_ok (s : store) (conf : Config.t) : Prop :=
  forall x, x ∈ Config.edits conf -> is_Some (edit_objs s !! x).

(** [ends m s]: from the store [s] the computation [m] comes to an end, with
    a value or with an exception. *)
Definition ends {A} (m : M A) (s : store) : Prop := runs m s (fun _ _ => True).

(** [raises m s]: from the store [s] the computation [m] ends with an
    exception. *)
Definition raises {A} (m : M A) (s : store) : Prop :=
  runs m s (fun _ r => exists e, r = raise e).

(** The item that [to_hex] yields for a colour of the mapping. *)
Definition hex_item (s : store) (kr : string * ref) : string * string :=
  (kr.1, match color_objs s !! kr.2 with
         | Some c => Color.hex c +:+ "ff"
         | None => ""
         end).

(** [recolored g refs s s']: from [s] to [s'] within the frame of
    [Palette.edit], the colours [refs] were changed by [g] and no other. *)
Definition recolored (g : Color.t _Color -> Color.t _Color) (refs : list ref)
    (s s' : store) : Prop :=
  edit_frame s s' /\
  forall r, color_objs s' !! r
            = if bool_decide (r ∈ refs) then g <$> color_objs s !! r
              else color_objs s !! r.

(** The rule [x] exists and has neither a name nor an accent selector. *)
Definition no_selector (s : store) (x : ref) : Prop :=
  exists e, edit_objs s !! x = Some e /\ Edit.name e = None /\ Edit.accent e = None.

(** The engine takes the working colour of [c] to the space of the
    configuration and from there to the string that [c] has as its [hex]. *)
Definition round_trip (conf : Config.t) (c : Color.t _Color) : Prop :=
  exists k k', _Color_convert (Color.color c) (Config.color_space conf) = ok k /\
               _Color_convert k "srgb" = ok k' /\
               _Color_to_string_hex k' = ok (Color.hex c).

(** The colour object with its working colour in the space of the
    configuration. *)
Definition in_space (conf : Config.t) (c : Color.t _Color) : Color.t _Color :=
  match _Color_convert (Color.color c) (Config.color_space conf) with
  | inr k => Color.with_color c k
  | inl _ => c
  end.

(** The palette object exists, its mapping has one item per name, and each
    colour of the mapping exists. *)
Definition variant_ok (s : store) (self : ref) : Prop :=
  exists p, palette_objs s !! self = Some p /\
            NoDup (Palette.colors p).*1 /\
            forall k r, (k, r) ∈ Palette.colors p -> is_Some (color_objs s !! r).

(** The colours of a variant, and of a list of variants. *)
Definition variant_colors (s : store) (self : ref) : list ref :=
  match palette_objs s !! self with
  | Some p => (Palette.colors p).*2
  | None => []
  end.

Fixpoint colors_of (s : store) (variants : list ref) : list ref :=
  match variants with
  | [] => []
  | v :: rest => variant_colors s v ++ colors_of s rest
  end.

(** The variants of a palette set, in the order of [palettes]. *)
Definition variants (p : Palettes.t ref) : list ref := (Palettes.palettes p).*2.

(** What the flattening encoder makes of a variant and of a palette set. *)
Definition flat_slot (s : store) (self : ref) : dict string :=
  match palette_objs s !! self with
  | Some p => hex_item s <$> Palette.colors p
  | None => []
  end.

Definition flat_json (d : dict string) : json :=
  JObj ((fun kv => (kv.1, JStr kv.2)) <$> d).

Definition flat_document (s : store) (p : Palettes.t ref) : json :=
  JObj [("version", JStr (Palettes.version p));
        ("latte", flat_json (flat_slot s (Palettes.latte p)));
        ("frappe", flat_json (flat_slot s (Palettes.frappe p)));
        ("macchiato", flat_json (flat_slot s (Palettes.macchiato p)));
        ("mocha", flat_json (flat_slot s (Palettes.mocha p)))].

(** What the encoder of the detailed mode makes of a colour, of a variant
    and of a palette set. *)
Definition color_json (c : Color.t _Color) : json :=
  JObj [("hex", JStr (Color.hex c)); ("accent", JBool (Color.accent c));
        ("color", JStr (_Color_str (Color.color c)))].

Definition detailed_item (s : store) (kr : string * ref) : string * json :=
  (kr.1, match color_objs s !! kr.2 with
         | Some c => color_json c
         | None => JNull
         end).

Definition detailed_slot (s : store) (self : ref) : json :=
  match palette_objs s !! self with
  | Some p => JObj [("name", JStr (Palette.name p));
                    ("dark", JBool (Palette.dark p));
                    ("colors", JObj (detailed_item s <$> Palette.colors p))]
  | None => JNull
  end.

Definition detailed_document (s : store) (p : Palettes.t ref) : json :=
  JObj [("version", JStr (Palettes.version p));
        ("latte", detailed_slot s (Palettes.latte p));
        ("frappe", detailed_slot s (Palettes.frappe p));
        ("macchiato", detailed_slot s (Palettes.macchiato p));
        ("mocha", detailed_slot s (Palettes.mocha p))].

(** The document of either mode. *)
Definition document (detailed : bool) (s : store) (p : Palettes.t ref) : json :=
  if detailed then detailed_document s p else flat_document s p.

(** [same_view detailed c c']: the two colour objects look the same in a
    document: the same [hex] and accent flag, and for the detailed mode the
    same string for the working colour. *)
Definition same_view (detailed : bool) (c c' : Color.t _Color) : Prop :=
  Color.hex c' = Color.hex c /\
  Color.accent c' = Color.accent c /\
  (detailed = true ->
   _Color_str (Color.color c') = _Color_str (Color.color c)).

(** [alpha_suffixed s colors flat]: [flat] has, name by name and in the
    order of [colors], the [hex] that the colour has in [s] followed by [ff]. *)
Definition alpha_suffixed (s : store) (colors : dict ref) (flat : dict string)
    : Prop :=
  Forall2 (fun kr kh => kh.1 = kr.1 /\
                        exists c, color_objs s !! kr.2 = Some c /\
                                  kh.2 = Color.hex c +:+ "ff")
          colors flat.

(** The string of the working colour stays the same when the engine takes
    the colour to the space of the configuration. *)
Definition prints_same (conf : Config.t) (c : Color.t _Color) : Prop :=
  _Color_str (Color.color (in_space conf c)) = _Color_str (Color.color c).

(** Two stores with the same colours, palettes and files: they differ in
    their [Edit] objects at most. *)
Definition same_but_edits (s1 s2 : store) : Prop :=
  color_objs s1 = color_objs s2 /\
  palette_objs s1 = palette_objs s2 /\
  written s1 = written s2.

(** Two outcomes that differ in the [Edit] objects of their stores at most:
    both use a reference to nothing, or both end, the same way. *)
Definition same_outcome {A} (o1 o2 : option (store * result A)) : Prop :=
  option_Forall2 (fun a b => same_but_edits a.1 b.1 /\ a.2 = b.2) o1 o2.

(** [blind m]: the computation [m] neither reads nor creates [Edit] objects. *)
Definition blind {A} (m : M A) : Prop :=
  forall s1 s2, same_but_edits s1 s2 -> same_outcome (m s1) (m s2).

(** The configuration with an empty list of rules. *)
Definition without_rules (conf : Config.t) : Config.t :=
  Config.mk (Config.color_space conf) (Config.inverse_edit_light conf) [].

(** [reworked refs s s']: from [s] to [s'], within the frame of
    [Palette.edit], every [Color] object has kept its [hex], and the colours
    outside [refs] are as they were. *)
Definition reworked (refs : list ref) (s s' : store) : Prop :=
  edit_frame s s' /\
  (forall r, option_Forall2 (fun c c' => Color.hex c' = Color.hex c)
                            (color_objs s !! r) (color_objs s' !! r)) /\
  (forall r, r ∉ refs -> color_objs s' !! r = color_objs s !! r).

(** The working colour [k] after the rules [es], in their order, each one
    applied if it selects the colour [name] with the flag [accent]. *)
Fixpoint edited (es : list Edit.t) (name : string) (accent : bool) (k : _Color)
    : result _Color :=
  match es with
  | [] => ok k
  | e :: rest =>
      if Edit.applies e name accent
      then rbind (_Color_set k (Edit.variable e) (Edit.__call__ e))
                 (edited rest name accent)
      else edited rest name accent k
  end.

(** The working colour of the colour object [c], named [name], after the
    conversion to the space of the configuration and the rules [es]. *)
Definition worked (conf : Config.t) (es : list Edit.t) (name : string)
    (c : Color.t _Color) : result _Color :=
  rbind (_Color_convert (Color.color c) (Config.color_space conf))
        (edited es name (Color.accent c)).

(** The string that [Color.update] derives from a working colour. *)
Definition committed (k : _Color) : result string :=
  rbind (_Color_convert k "srgb") _Color_to_string_hex.

(** The colour object that the conversion, the rules [es] and the commit make
    of the colour object [c], named [name]. *)
Definition customized (conf : Config.t) (es : list Edit.t) (name : string)
    (c : Color.t _Color) : result (Color.t _Color) :=
  rbind (worked conf es name c) (fun k =>
  rbind (committed k) (fun h => ok (Color.mk h (Color.accent c) k))).

(** The rules [es] are the objects behind the references [refs]. *)
Definition rules_at (s : store) (refs : list ref) (es : list Edit.t) : Prop :=
  Forall2 (fun x e => edit_objs s !! x = Some e) refs es.

(** The copies of the rules [es] that [Palette.edit] makes for the variant
    [p]. *)
Definition copies (conf : Config.t) (p : Palette.t ref) (es : list Edit.t)
    : list Edit.t :=
  (fun e => Edit.replace_inverse_light e (Palette_edit_inverse p conf)) <$> es.

(** No rule behind [edits] selects a colour of the mapping [colors]. *)
Definition unselected (s : store) (edits : list ref) (colors : dict ref) : Prop :=
  forall x, x ∈ edits ->
    exists e, edit_objs s !! x = Some e /\
              forall name r c, (name, r) ∈ colors -> color_objs s !! r = Some c ->
                               Edit.applies e name (Color.accent c) = false.

(** [grows s s']: from [s] to [s'] objects were created at most: every
    [Color] and [Palette] object of [s] is in [s'] as it was, and the [Edit]
    objects and the files are the same. *)
Definition grows (s s' : store) : Prop :=
  edit_objs s' = edit_objs s /\
  written s' = written s /\
  color_objs s ⊆ color_objs s' /\
  palette_objs s ⊆ palette_objs s'.

(** The working colour of [c] is what [__post_init__] makes of its [hex]. *)
Definition constructed (c : Color.t _Color) : Prop :=
  rbind (_Color_new (Color.hex c)) (fun k => _Color_convert k "okhsl")
  = ok (Color.color c).

(** [planted s s' refs]: the colours [refs] are distinct objects of [s'] that
    were not in [s], each one constructed from its [hex]. *)
Definition planted (s s' : store) (refs : list ref) : Prop :=
  NoDup refs /\
  forall r, r ∈ refs ->
            color_objs s !! r = None /\
            exists c, color_objs s' !! r = Some c /\ constructed c.

(** What [__post_init__] raises, as the decoder passes it on. *)
Definition as_validation (e : exn) : exn :=
  match e with
  | ValueError what => ValidationError what
  | other => other
  end.

(** [sown s s' vs]: the variants [vs] are distinct [Palette] objects of [s']
    that were not in [s], each with one item per name, and their colours are
    distinct new objects, each one constructed from its [hex]. *)
Definition sown (s s' : store) (vs : list ref) : Prop :=
  NoDup vs /\
  (forall v, v ∈ vs ->
             palette_objs s !! v = None /\
             exists p, palette_objs s' !! v = Some p /\
                       NoDup (Palette.colors p).*1) /\
  planted s s' (colors_of s' vs).

End Vocabulary.

(** ** What the decoder reads *)

Section Decoded.
Context `{CE : ColorEngine} `{DE : Decoder}.

(** The colour object [c] holds what the decoder reads in the value [j]: an
    object whose members [hex] and [accent] decode to the fields of [c]. *)
Definition color_from (j : json) (c : Color.t _Color) : Prop :=
  exists fields hv av,
    j = JObj fields /\
    member "hex" fields = Some hv /\ decode_str hv = ok (Color.hex c) /\
    member "accent" fields = Some av /\ decode_bool av = ok (Color.accent c).

(** The items [items] are the members [members], name by name and in their
    order, each value decoded into a colour object of [s]. *)
Definition colors_from (s : store) (members : list (string * json))
    (items : list (string * ref)) : Prop :=
  Forall2 (fun kj kx => kx.1 = kj.1 /\
                        exists c, color_objs s !! kx.2 = Some c /\
                                  color_from kj.2 c)
          members items.

(** The palette object [p] holds what the decoder reads in the value [j]:
    [name] and [dark] decoded, and the dict of the decoded colours. *)
Definition variant_from (s : store) (j : json) (p : Palette.t ref) : Prop :=
  exists fields nv dv members items,
    j = JObj fields /\
    member "name" fields = Some nv /\ decode_str nv = ok (Palette.name p) /\
    member "dark" fields = Some dv /\ decode_bool dv = ok (Palette.dark p) /\
    member "colors" fields = Some (JObj members) /\
    colors_from s members items /\
    Palette.colors p = dict_of_items items.

(** The variant [v] of [s] is the decoded member [slot] of the document. *)
Definition slot_from (s : store) (members : list (string * json))
    (slot : string) (v : ref) : Prop :=
  exists j p, member slot members = Some j /\
              palette_objs s !! v = Some p /\ variant_from s j p.

End Decoded.

(** ** A small engine and decoder for the examples *)

(** The engine of the examples keeps the colour string in lower case, as
    coloraide prints hexadecimal colours, next to the name of its space and a
    table of the channels that were set. Every space and channel name is
    known to it, and a channel that was never set reads as zero. *)
Module Tiny.

Definition lower_ascii (a : Ascii.ascii) : Ascii.ascii :=
  let n := Ascii.nat_of_ascii a in
  if (65 <=? n)%nat && (n <=? 90)%nat then Ascii.ascii_of_nat (n + 32) else a.

Fixpoint lower (s : string) : string :=
  match s with
  | EmptyString => EmptyString
  | String a rest => String (lower_ascii a) (lower rest)
  end.

Record colour : Type := mk {
  text : string;
  space : string;
  channels : dict float
}.

Definition get (c : colour) (name : string) : result float :=
  ok (default 0%float (dict_get (channels c) name)).

Definition setitem (c : colour) (name : string) (v : float) : result colour :=
  ok (mk (text c) (space c) (dict_setitem (channels c) name v)).

Definition engine : ColorEngine := {|
  _Color := colour;
  _DEFAULT_COLOR := mk "" "okhsl" [];
  _Color_new := fun s => ok (mk (lower s) "srgb" []);
  _Color_convert := fun c space => ok (mk (text c) space (channels c));
  _Color_get := get;
  _Color_setitem := setitem;
  _Color_to_string_hex := fun c => ok (text c);
  _Color_str := fun c => space c +:+ " " +:+ text c
|}.
#[local] Existing Instance engine.

(** The decoder of the examples takes a JSON string for a [str] and a JSON
    boolean for a [bool]. *)
Definition decoder : Decoder := {|
  decode_str := fun j => match j with
                         | JStr s => ok s
                         | _ => raise (ValidationError "Expected str")
                         end;
  decode_bool := fun j => match j with
                          | JBool b => ok b
                          | _ => raise (ValidationError "Expected bool")
                          end
|}.

(** A store with nothing in it. *)
Definition empty : store := mkStore ∅ ∅ ∅ [].

(** One variant of a document, with one colour. *)
Definition variant (name : string) (dark : bool) (hex : string) : json :=
  JObj [("name", JStr name); ("dark", JBool dark);
        ("colors", JObj [("red", JObj [("hex", JStr hex); ("accent", JBool true)])])].

(** A document with the four variants, each with the colour [hex]. *)
Definition document (hex : string) : json :=
  JObj [("version", JStr "1"); ("latte", variant "Latte" false hex);
        ("frappe", variant "Frappe" true hex);
        ("macchiato", variant "Macchiato" true hex);
        ("mocha", variant "Mocha" true hex)].

(** The same document without its last slot. *)
Definition document_without_mocha (hex : string) : json :=
  JObj [("version", JStr "1"); ("latte", variant "Latte" false hex);
        ("frappe", variant "Frappe" true hex);
        ("macchiato", variant "Macchiato" true hex)].

(** A rule without a selector, and a store that holds only this rule: the
    state after the configuration was decoded. *)
Definition rule : Edit.t := Edit.mk "lightness" 0.125 Edit.add None None false.

Definition configured : store := mkStore {[ 1%positive := rule ]} ∅ ∅ [].

Definition conf : Config.t := Config.mk "okhsl" true [1%positive].

(** The store after the document with the colour [#ff0000] was decoded as
    well: four variants, each with its own colour object. *)
Definition red : Color.t colour :=
  Color.mk "#ff0000" true (mk "#ff0000" "okhsl" []).

Definition latte : Palette.t ref := Palette.mk "Latte" false [("red", 1%positive)].
Definition frappe : Palette.t ref := Palette.mk "Frappe" true [("red", 2%positive)].
Definition macchiato : Palette.t ref := Palette.mk "Macchiato" true [("red", 3%positive)].
Definition mocha : Palette.t ref := Palette.mk "Mocha" true [("red", 4%positive)].

Definition decoded : store :=
  mkStore {[ 1%positive := rule ]}
          {[ 1%positive := red; 2%positive := red; 3%positive := red;
             4%positive := red ]}
          {[ 1%positive := latte; 2%positive := frappe; 3%positive := macchiato;
             4%positive := mocha ]}
          [].

Definition palettes : Palettes.t ref :=
  Palettes.mk "1" 1%positive 2%positive 3%positive 4%positive.

(** The same store with another rule in the configuration. *)
Definition with_rule (e : Edit.t) : store :=
  mkStore {[ 1%positive := e ]} (color_objs decoded) (palette_objs decoded) [].

(** A rule for the accent colours that adds to the lightness, and one that
    multiplies it by zero. *)
Definition lighter : Edit.t :=
  Edit.mk "lightness" 0.125 Edit.add None (Some true) false.

Definition zero_times : Edit.t :=
  Edit.mk "lightness" 0 Edit.multiply None (Some true) false.

(** The colour object [r] and the outcome, after a computation. *)
Definition look {A} (r : ref) (o : option (store * result A))
    : option (option (Color.t colour) * result A) :=
  (fun sr => (color_objs sr.1 !! r, sr.2)) <$> o.

(** A rule for a colour that the variants of the examples do not have. *)
Definition for_blue : Edit.t :=
  Edit.mk "lightness" 0.125 Edit.add (Some "blue") None false.

(** The decoded store with other accent flags and working colours, the
    [hex] of each colour the same. *)
Definition pale : Color.t colour :=
  Color.mk "#ff0000" false (mk "#ff0000" "srgb" []).

Definition repainted : store :=
  mkStore {[ 1%positive := rule ]}
          {[ 1%positive := pale; 2%positive := pale; 3%positive := pale;
             4%positive := pale ]}
          (palette_objs decoded) [].

(** A document whose first variant has no [dark], and one in which the
    colour of the first variant has no [accent]. *)
Definition document_without_dark : json :=
  JObj [("version", JStr "1");
        ("latte", JObj [("name", JStr "Latte"); ("colors", JObj [])])].

Definition document_without_accent : json :=
  JObj [("version", JStr "1");
        ("latte", JObj [("name", JStr "Latte"); ("dark", JBool false);
                        ("colors", JObj [("red", JObj [("hex", JStr "#ff0000")])])])].

End Tiny.

(** * Properties *)

(** ** Floating-point facts behind the evaluation laws *)

Lemma SF64add_opp (x y : spec_float) : SF64add x (SFopp y) = SF64sub x y.
Proof.
  destruct x as [[]|[]| |[] mx ex], y as [[]|[]| |[] my ey]; reflexivity.
Qed.

(** Adding the opposite is subtracting, on every pair of floats. *)
Lemma float_add_opp (x y : float) : (x + - y)%float = (x - y)%float.
Proof.
  apply Prim2SF_inj.
  rewrite add_spec, sub_spec, opp_spec.
  apply SF64add_opp.
Qed.


(** ** Selector matching *)

Lemma selects_true {A} `{EqDecision A} (a : option A) (b : A) :
  Edit.selects a b = true <-> a = Some b.
Proof.
  destruct a as [x|]; simpl.
  - rewrite bool_decide_eq_true. split; [intros -> | intros [= ->]]; reflexivity.
  - split; discriminate.
Qed.

(** The test of line 91 is true exactly when the name selector is set and is
    the colour's name, or the accent selector is set and is the colour's
    accent flag; for a rule with neither selector it is false. *)
Lemma applies_iff_selector (edit : Edit.t) (name : string) (accent : bool) :
  (Edit.applies edit name accent = true <->
     Edit.name edit = Some name \/ Edit.accent edit = Some accent)
  /\ (forall variable value type inverse,
        Edit.applies (Edit.mk variable value type None None inverse) name accent
        = false).
Proof.
  split.
  - unfold Edit.applies.
    rewrite orb_true_iff, !selects_true. reflexivity.
  - reflexivity.
Qed.

(** ** Rule evaluation *)

Lemma lightness_like_spec (v : string) :
  Edit.lightness_like v = true <-> lightness_set v.
Proof.
  unfold Edit.lightness_like, lightness_set.
  rewrite orb_true_iff, !bool_decide_eq_true. reflexivity.
Qed.

Lemma lightness_like_false (v : string) :
  ~ lightness_set v -> Edit.lightness_like v = false.
Proof.
  intros Hv. apply not_true_is_false. rewrite lightness_like_spec. exact Hv.
Qed.

(** C2. An [add] rule gives [current + value] without inversion,
    [current - value] with inversion on a lightness channel, and
    [current + value] with inversion on any other channel. *)
Theorem call_add (self : Edit.t) (current : float)
    (Hadd : Edit.type self = Edit.add) :
  (Edit._inverse_light self = false ->
     Edit.__call__ self current = ok (current + Edit.value self)%float)
  /\ (Edit._inverse_light self = true -> lightness_set (Edit.variable self) ->
        Edit.__call__ self current = ok (current - Edit.value self)%float)
  /\ (Edit._inverse_light self = true -> ~ lightness_set (Edit.variable self) ->
        Edit.__call__ self current = ok (current + Edit.value self)%float).
Proof.
  unfold Edit.__call__. rewrite Hadd.
  repeat split.
  - intros ->. reflexivity.
  - intros -> Hv. apply lightness_like_spec in Hv as ->. simpl.
    rewrite float_add_opp. reflexivity.
  - intros -> Hv. rewrite (lightness_like_false _ Hv). reflexivity.
Qed.

Lemma call_add_witness :
  Edit.__call__ (Edit.mk "lightness" 0.125 Edit.add None (Some true) true) 0.5
  = ok (0.5 - 0.125)%float.
Proof.
  apply (call_add (Edit.mk "lightness" 0.125 Edit.add None (Some true) true) 0.5
                  eq_refl).
  - reflexivity.
  - right. reflexivity.
Defined.

(** C3, as the code has it. A [multiply] rule gives [current * value] without
    inversion and with inversion on a channel outside the lightness set; with
    inversion on a lightness channel and a value that is not zero it gives
    [current * (1.0 / value)], the product with the rounded reciprocal. A
    [value] rule gives the rule's value. *)
Theorem call_multiply (self : Edit.t) (current : float) :
  (Edit.type self = Edit.multiply ->
     (Edit._inverse_light self = false ->
        Edit.__call__ self current = ok (current * Edit.value self)%float)
     /\ (Edit._inverse_light self = true -> lightness_set (Edit.variable self) ->
           (Edit.value self =? 0)%float = false ->
           Edit.__call__ self current
           = ok (current * (1 / Edit.value self))%float)
     /\ (Edit._inverse_light self = true -> ~ lightness_set (Edit.variable self) ->
           Edit.__call__ self current = ok (current * Edit.value self)%float))
  /\ (Edit.type self = Edit.value_ ->
        Edit.__call__ self current = ok (Edit.value self)).
Proof.
  unfold Edit.__call__. split; intros ->; [repeat split|reflexivity].
  - intros ->. reflexivity.
  - intros -> Hv Hz. apply lightness_like_spec in Hv as ->. simpl.
    unfold float_truediv. rewrite Hz. reflexivity.
  - intros -> Hv. rewrite (lightness_like_false _ Hv). reflexivity.
Qed.

Lemma call_multiply_witness :
  Edit.__call__ (Edit.mk "l" 49 Edit.multiply None None true) 49
  = ok (49 * (1 / 49))%float.
Proof.
  apply (call_multiply (Edit.mk "l" 49 Edit.multiply None None true) 49).
  - reflexivity.
  - reflexivity.
  - left. reflexivity.
  - reflexivity.
Defined.

(** C3, as the specification states it, fails: with inversion on a lightness channel,
    [49.0] times the reciprocal of [49.0] is [0.9999999999999999], not the
    quotient [49.0 / 49.0], which is [1.0]. *)
Lemma call_multiply_not_quotient :
  Edit.__call__ (Edit.mk "lightness" 49 Edit.multiply None None true) 49
  <> ok (49 / 49)%float.
Proof.
  intros H.
  apply (f_equal (fun r : result float =>
                    match r with
                    | inr x => (x =? 1)%float
                    | inl _ => false
                    end)) in H.
  vm_compute in H. discriminate H.
Qed.

(** C4. A [multiply] rule whose value is zero (of either sign), evaluated
    with inversion on a lightness channel, raises [ZeroDivisionError]. *)
Theorem call_multiply_zero_raises (self : Edit.t) (current : float) :
  Edit.type self = Edit.multiply ->
  Edit._inverse_light self = true ->
  lightness_set (Edit.variable self) ->
  (Edit.value self =? 0)%float = true ->
  Edit.__call__ self current = raise ZeroDivisionError.
Proof.
  intros Hty Hinv Hv Hz. unfold Edit.__call__.
  rewrite Hty, Hinv. apply lightness_like_spec in Hv as ->. simpl.
  unfold float_truediv. rewrite Hz. reflexivity.
Qed.

Lemma call_multiply_zero_raises_witness :
  Edit.__call__ (Edit.mk "lightness" 0 Edit.multiply None (Some true) true) 0.5
  = raise ZeroDivisionError.
Proof.
  apply (call_multiply_zero_raises
           (Edit.mk "lightness" 0 Edit.multiply None (Some true) true) 0.5).
  - reflexivity.
  - reflexivity.
  - right. reflexivity.
  - reflexivity.
Defined.

(** ** When a rule raises *)

(** X1. The only exception of [Edit.__call__] is [ZeroDivisionError], and it
    is raised exactly by a [multiply] rule with a zero value, evaluated with
    inversion on a lightness channel; in every other case a float is
    returned. *)
Theorem call_raises_iff (self : Edit.t) (current : float) (e : exn) :
  Edit.__call__ self current = raise e <->
  e = ZeroDivisionError
  /\ Edit.type self = Edit.multiply
  /\ Edit._inverse_light self = true
  /\ lightness_set (Edit.variable self)
  /\ (Edit.value self =? 0)%float = true.
Proof.
  unfold Edit.__call__. split.
  - destruct (Edit.type self); try discriminate.
    destruct (Edit._inverse_light self); simpl; [|discriminate].
    destruct (Edit.lightness_like (Edit.variable self)) eqn:Hv; simpl;
      [|discriminate].
    unfold float_truediv.
    destruct (Edit.value self =? 0)%float; simpl; [|discriminate].
    intros [= <-]. apply lightness_like_spec in Hv. auto.
  - intros (-> & -> & -> & Hv & Hz). apply lightness_like_spec in Hv as ->.
    simpl. unfold float_truediv. rewrite Hz. reflexivity.
Qed.

(** ** Reasoning about computations *)

Section Reasoning.
Context `{CE : ColorEngine}.

Lemma runs_mono {A} (m : M A) s (Q Q' : store -> result A -> Prop) :
  runs m s Q -> (forall s' r, Q s' r -> Q' s' r) -> runs m s Q'.
Proof. intros (s' & r & Hm & HQ) HQQ'. exists s', r. auto. Qed.

Lemma runs_ret {A} (a : A) s (Q : store -> result A -> Prop) :
  Q s (ok a) -> runs (mret a) s Q.
Proof. intros HQ. exists s, (ok a). auto. Qed.

Lemma runs_lift {A} (r : result A) s (Q : store -> result A -> Prop) :
  Q s r -> runs (lift r) s Q.
Proof. intros HQ. exists s, r. auto. Qed.

Lemma runs_bind {A B} (m : M A) (k : A -> M B) s (Q : store -> result B -> Prop) :
  runs m s (fun s' r => match r with
                        | inl e => Q s' (inl e)
                        | inr a => runs (k a) s' Q
                        end) ->
  runs (m ≫= k) s Q.
Proof.
  intros (s' & [e|a] & Hm & HQ); unfold runs, mbind, M_bind; rewrite Hm.
  - exists s', (inl e). auto.
  - exact HQ.
Qed.

Lemma runs_get_edit r e s (Q : store -> result Edit.t -> Prop) :
  edit_objs s !! r = Some e -> Q s (ok e) -> runs (get_edit r) s Q.
Proof. intros Hr HQ. exists s, (ok e). unfold get_edit. rewrite Hr. auto. Qed.

Lemma runs_get_color r c s (Q : store -> result (Color.t _Color) -> Prop) :
  color_objs s !! r = Some c -> Q s (ok c) -> runs (get_color r) s Q.
Proof. intros Hr HQ. exists s, (ok c). unfold get_color. rewrite Hr. auto. Qed.

Lemma runs_get_palette r p s (Q : store -> result (Palette.t ref) -> Prop) :
  palette_objs s !! r = Some p -> Q s (ok p) -> runs (get_palette r) s Q.
Proof. intros Hr HQ. exists s, (ok p). unfold get_palette. rewrite Hr. auto. Qed.

(** A loop keeps what each turn keeps, whether it ends or raises. *)
Lemma runs_for_each {A} (I : store -> Prop) (l : list A) (body : A -> M unit) s :
  I s ->
  (forall x s, x ∈ l -> I s -> runs (body x) s (fun s' _ => I s')) ->
  runs (for_each l body) s (fun s' _ => I s').
Proof.
  revert s. induction l as [|x l IH]; intros s Hs Hbody; simpl.
  - apply runs_ret. exact Hs.
  - apply runs_bind.
    eapply runs_mono; [apply (Hbody x s); [left|exact Hs]|].
    intros s' [e|[]] Hs'; [exact Hs'|].
    apply IH; [exact Hs'|].
    intros y s1 Hy. apply Hbody. right. exact Hy.
Qed.

(** ** What [Palette.edit] can change *)

Lemma edit_frame_refl s : edit_frame s s.
Proof.
  split; try reflexivity.
  intros r. destruct (color_objs s !! r); constructor. reflexivity.
Qed.

Lemma edit_frame_trans s1 s2 s3 :
  edit_frame s1 s2 -> edit_frame s2 s3 -> edit_frame s1 s3.
Proof.
  intros [He1 Hp1 Hw1 Hc1] [He2 Hp2 Hw2 Hc2]. split.
  - etrans; eassumption.
  - congruence.
  - congruence.
  - intros r. specialize (Hc1 r). specialize (Hc2 r).
    destruct Hc1 as [c1 c2 H12|]; inversion Hc2; subst; constructor.
    congruence.
Qed.

Lemma edit_frame_color s s' r :
  edit_frame s s' -> is_Some (color_objs s !! r) -> is_Some (color_objs s' !! r).
Proof.
  intros [_ _ _ Hc] [c Hr]. specialize (Hc r). rewrite Hr in Hc.
  inversion Hc. eauto.
Qed.

Lemma edit_frame_edit s s' r :
  edit_frame s s' -> is_Some (edit_objs s !! r) -> is_Some (edit_objs s' !! r).
Proof.
  intros [He _ _ _] [e Hr]. exists e. eapply lookup_weaken; eassumption.
Qed.

Lemma runs_put_color r c c' s (Q : store -> result unit -> Prop) :
  color_objs s !! r = Some c ->
  Color.accent c' = Color.accent c ->
  (forall s', edit_frame s s' -> color_objs s' = <[r := c']> (color_objs s) ->
              edit_objs s' = edit_objs s -> Q s' (ok tt)) ->
  runs (put_color r c') s Q.
Proof.
  intros Hr Hacc HQ. eexists _, (ok tt). split; [reflexivity|].
  apply HQ; [|reflexivity|reflexivity].
  split; simpl; try reflexivity.
  intros x. destruct (decide (x = r)) as [->|Hx].
  - rewrite lookup_insert_eq, Hr. constructor. exact Hacc.
  - rewrite lookup_insert_ne by congruence.
    destruct (color_objs s !! x); constructor. reflexivity.
Qed.

Lemma runs_new_edit e s (Q : store -> result ref -> Prop) :
  (forall s' r, edit_frame s s' -> edit_objs s !! r = None ->
                edit_objs s' = <[r := e]> (edit_objs s) ->
                color_objs s' = color_objs s -> Q s' (ok r)) ->
  runs (new_edit e) s Q.
Proof.
  intros HQ. eexists _, (ok _). split; [reflexivity|].
  assert (Hfresh : edit_objs s !! fresh (dom (edit_objs s)) = None).
  { apply not_elem_of_dom, is_fresh. }
  apply HQ; [|exact Hfresh|reflexivity|reflexivity].
  split; simpl; try reflexivity.
  - apply insert_subseteq. exact Hfresh.
  - intros x. destruct (color_objs s !! x); constructor. reflexivity.
Qed.

(** [Color.edit] and [Color.update] stay within the frame, and run whenever
    the objects they are given exist. *)
Lemma Color_edit_frame self key value s :
  is_Some (color_objs s !! self) -> is_Some (edit_objs s !! value) ->
  runs (Color_edit self key value) s (fun s' _ => edit_frame s s').
Proof.
  intros [c Hc] [f Hf]. unfold Color_edit.
  apply runs_bind, (runs_get_color _ c); [exact Hc|].
  apply runs_bind, (runs_get_edit _ f); [exact Hf|].
  apply runs_bind, runs_lift.
  destruct (_Color_set _ _ _) as [e|k]; [apply edit_frame_refl|].
  apply (runs_put_color _ c); [exact Hc|reflexivity|]. auto.
Qed.

Lemma Color_update_frame self s :
  is_Some (color_objs s !! self) ->
  runs (Color_update self) s (fun s' _ => edit_frame s s').
Proof.
  intros [c Hc]. unfold Color_update.
  apply runs_bind, (runs_get_color _ c); [exact Hc|].
  apply runs_bind, runs_lift.
  destruct (rbind _ _) as [e|h]; [apply edit_frame_refl|].
  apply (runs_put_color _ c); [exact Hc|reflexivity|]. auto.
Qed.

(** One turn of the first loop of [Palette.edit]. *)
Lemma Palette_edit_color_frame conf edits name color s :
  is_Some (color_objs s !! color) ->
  (forall x, x ∈ edits -> is_Some (edit_objs s !! x)) ->
  runs (Palette_edit_color conf edits name color) s (fun s' _ => edit_frame s s').
Proof.
  intros [c Hc] Hedits. unfold Palette_edit_color.
  apply runs_bind, (runs_get_color _ c); [exact Hc|].
  apply runs_bind, runs_lift.
  destruct (_Color_convert _ _) as [e|k]; [apply edit_frame_refl|].
  apply runs_bind, (runs_put_color _ c); [exact Hc|reflexivity|].
  intros s1 Hs1 _ _.
  apply (runs_for_each (fun s' => edit_frame s s')); [exact Hs1|].
  intros x s2 Hx Hs2.
  destruct (edit_frame_edit _ _ x Hs2 (Hedits x Hx)) as [f Hf].
  destruct (edit_frame_color _ _ color Hs2 (mk_is_Some _ _ Hc)) as [c2 Hc2].
  apply runs_bind, (runs_get_edit _ f); [exact Hf|].
  apply runs_bind, (runs_get_color _ c2); [exact Hc2|].
  cbv beta iota. destruct (Edit.applies _ _ _).
  - eapply runs_mono; [apply Color_edit_frame; eauto|].
    intros s3 r3 Hs3. eapply edit_frame_trans; eassumption.
  - apply runs_ret. exact Hs2.
Qed.

(** ** The derived rules *)

Lemma derived_from s s1 s2 inverse x r :
  edit_frame s s1 -> is_Some (edit_objs s !! x) ->
  derived s1 s2 inverse x r -> derived s s2 inverse x r.
Proof.
  intros Hs1 [e0 He0] (Hr & e & Hx & He). split.
  - eapply lookup_weaken_None; [exact Hr|apply (frame_edits _ _ Hs1)].
  - exists e. split; [|exact He].
    pose proof (lookup_weaken _ _ _ _ He0 (frame_edits _ _ Hs1)). congruence.
Qed.

Lemma Forall2_derived_from s s1 s2 inverse l refs :
  edit_frame s s1 -> (forall x, x ∈ l -> is_Some (edit_objs s !! x)) ->
  Forall2 (derived s1 s2 inverse) l refs -> Forall2 (derived s s2 inverse) l refs.
Proof.
  intros Hs1 Hl H. induction H as [|x r l refs Hxr H IH]; constructor.
  - eapply derived_from; [exact Hs1| |exact Hxr]. apply Hl. left.
  - apply IH. intros y Hy. apply Hl. right. exact Hy.
Qed.

Lemma derive_runs inverse (l : list ref) s :
  (forall x, x ∈ l -> is_Some (edit_objs s !! x)) ->
  runs (map_M (fun x => e ← get_edit x;
                        new_edit (Edit.replace_inverse_light e inverse)) l) s
       (fun s' r => exists refs, r = ok refs /\ edit_frame s s' /\
                                 color_objs s' = color_objs s /\
                                 Forall2 (derived s s' inverse) l refs).
Proof.
  revert s. induction l as [|x l IH]; intros s Hl; simpl.
  - apply runs_ret. exists []. split; [reflexivity|].
    split; [apply edit_frame_refl|]. split; [reflexivity|constructor].
  - destruct (Hl x) as [e He]; [left|].
    apply runs_bind, runs_bind, (runs_get_edit _ e); [exact He|].
    apply runs_new_edit. intros s1 r Hs1 Hr He1 Hc1.
    apply runs_bind. eapply runs_mono; [apply IH|].
    + intros y Hy. apply (edit_frame_edit s); [exact Hs1|].
      apply Hl. right. exact Hy.
    + intros s2 res (refs & -> & Hs2 & Hc2 & Hrefs).
      apply runs_ret. exists (r :: refs).
      split; [reflexivity|]. split; [eapply edit_frame_trans; eassumption|].
      split; [congruence|]. constructor.
      * split; [exact Hr|]. exists e. split; [exact He|].
        eapply lookup_weaken; [|apply (frame_edits _ _ Hs2)].
        rewrite He1. apply lookup_insert_eq.
      * eapply Forall2_derived_from; [exact Hs1| |exact Hrefs].
        intros y Hy. apply Hl. right. exact Hy.
Qed.

(** Lines 82 to 85 of [Palette.edit] run for a palette and rules that exist;
    they create the copies and change nothing. *)
Lemma Palette_edit_edits_runs self p conf s :
  palette_objs s !! self = Some p ->
  (forall x, x ∈ Config.edits conf -> is_Some (edit_objs s !! x)) ->
  runs (Palette_edit_edits self conf) s
       (fun s' r => exists refs,
          r = ok refs /\ edit_frame s s' /\ color_objs s' = color_objs s /\
          Forall2 (derived s s' (Palette_edit_inverse p conf))
                  (Config.edits conf) refs).
Proof.
  intros Hp Hedits. unfold Palette_edit_edits.
  apply runs_bind, (runs_get_palette _ p); [exact Hp|].
  apply derive_runs. exact Hedits.
Qed.

(** ** [Palette.edit] runs, within the frame *)

Lemma derived_edit s s' inverse x r :
  derived s s' inverse x r -> is_Some (edit_objs s' !! r).
Proof. intros (_ & e & _ & He). eauto. Qed.

Lemma Palette_edit_runs self conf s :
  palette_ok s self -> rules_ok s conf ->
  runs (Palette_edit self conf) s (fun s' _ => edit_frame s s').
Proof.
  intros (p & Hp & Hcolors) Hrules. unfold Palette_edit, Palette_edit_loops.
  apply runs_bind.
  eapply runs_mono; [apply (Palette_edit_edits_runs self p); assumption|].
  intros s1 r (refs & -> & Hs1 & Hc1 & Hrefs).
  assert (Hp1 : palette_objs s1 !! self = Some p).
  { rewrite (frame_palettes _ _ Hs1). exact Hp. }
  apply runs_bind, (runs_get_palette _ p); [exact Hp1|].
  apply runs_bind.
  eapply runs_mono;
    [apply (runs_for_each (fun s' => edit_frame s1 s')); [apply edit_frame_refl|]|].
  - intros [name color] s2 Hin Hs2.
    eapply runs_mono; [apply Palette_edit_color_frame|].
    + apply (edit_frame_color s1); [exact Hs2|]. rewrite Hc1. eauto.
    + intros x Hx. apply (edit_frame_edit s1); [exact Hs2|].
      apply list_elem_of_lookup in Hx as [i Hi].
      destruct (Forall2_lookup_r _ _ _ _ _ Hrefs Hi) as (y & _ & Hy).
      eapply derived_edit. exact Hy.
    + intros s3 r3 Hs3. eapply edit_frame_trans; eassumption.
  - intros s2 [e|[]] Hs2; [eapply edit_frame_trans; eassumption|].
    assert (Hp2 : palette_objs s2 !! self = Some p).
    { rewrite (frame_palettes _ _ Hs2). exact Hp1. }
    apply runs_bind, (runs_get_palette _ p); [exact Hp2|].
    eapply runs_mono;
      [apply (runs_for_each (fun s' => edit_frame s2 s')); [apply edit_frame_refl|]|].
    + intros color s3 Hin Hs3.
      apply list_elem_of_fmap in Hin as ([name color'] & -> & Hin).
      eapply runs_mono; [apply Color_update_frame|].
      * apply (edit_frame_color s2); [exact Hs3|].
        apply (edit_frame_color s1); [exact Hs2|]. rewrite Hc1. eauto.
      * intros s4 r4 Hs4. eapply edit_frame_trans; eassumption.
    + intros s3 r3 Hs3.
      eapply edit_frame_trans; [exact Hs1|].
      eapply edit_frame_trans; eassumption.
Qed.

(** C5. The flag that [Palette.edit] gives to the rules of a variant is
    [conf.inverse_edit_light and not self.dark]: every copy it makes of a rule
    carries it, and for a dark variant every copy carries [False]. *)
Theorem Palette_edit_inverse_flag self p conf s :
  palette_objs s !! self = Some p ->
  rules_ok s conf ->
  runs (Palette_edit_edits self conf) s
       (fun s' r => exists refs,
          r = ok refs /\
          Forall2 (fun x copy =>
                     exists e e',
                       edit_objs s !! x = Some e /\
                       edit_objs s' !! copy = Some e' /\
                       Edit._inverse_light e'
                       = Config.inverse_edit_light conf && negb (Palette.dark p) /\
                       (Palette.dark p = true -> Edit._inverse_light e' = false))
                  (Config.edits conf) refs).
Proof.
  intros Hp Hrules.
  eapply runs_mono; [apply (Palette_edit_edits_runs self p); assumption|].
  intros s' r (refs & -> & _ & _ & Hrefs). exists refs. split; [reflexivity|].
  eapply Forall2_impl; [exact Hrefs|].
  intros x copy (_ & e & Hx & Hcopy).
  exists e, (Edit.replace_inverse_light e (Palette_edit_inverse p conf)).
  split; [exact Hx|]. split; [exact Hcopy|]. simpl.
  unfold Palette_edit_inverse. split; [reflexivity|].
  intros ->. apply andb_false_r.
Qed.

(** C8. [Palette.edit] changes no rule of the configuration: when it ends,
    with or without an exception, every [Edit] object that existed is as it
    was, the rules of [conf.edits] among them; the flag is on the copies, which
    are new objects. *)
Theorem Palette_edit_keeps_rules self conf s :
  palette_ok s self -> rules_ok s conf ->
  runs (Palette_edit self conf) s
       (fun s' _ =>
          (forall x e, edit_objs s !! x = Some e -> edit_objs s' !! x = Some e)
          /\ Forall (fun x => edit_objs s' !! x = edit_objs s !! x)
                    (Config.edits conf))
  /\ runs (Palette_edit_edits self conf) s
          (fun s' r => exists refs,
             r = ok refs /\
             Forall2 (fun x copy => edit_objs s !! copy = None /\
                                    edit_objs s' !! x = edit_objs s !! x)
                     (Config.edits conf) refs).
Proof.
  intros Hself Hrules. split.
  - eapply runs_mono; [apply Palette_edit_runs; assumption|].
    intros s' r Hs'.
    assert (Hkeep : forall x e, edit_objs s !! x = Some e ->
                                edit_objs s' !! x = Some e).
    { intros x e Hx. eapply lookup_weaken; [exact Hx|apply (frame_edits _ _ Hs')]. }
    split; [exact Hkeep|].
    apply Forall_forall. intros x Hx.
    destruct (Hrules x Hx) as [e He]. rewrite He. apply Hkeep. exact He.
  - destruct Hself as (p & Hp & _).
    eapply runs_mono; [apply (Palette_edit_edits_runs self p); assumption|].
    intros s' r (refs & -> & Hs' & _ & Hrefs). exists refs. split; [reflexivity|].
    eapply Forall2_impl; [exact Hrefs|].
    intros x copy (Hcopy & e & Hx & _). split; [exact Hcopy|].
    rewrite Hx. eapply lookup_weaken; [exact Hx|apply (frame_edits _ _ Hs')].
Qed.

(** C10. [Palette.edit] keeps the colour mapping of the variant: when it
    ends, with or without an exception, the palette object is as it was (the
    same names, for the same [Color] objects, in the same order), and each
    [Color] object is still there, with its accent flag. *)
Theorem Palette_edit_keeps_names self conf s :
  palette_ok s self -> rules_ok s conf ->
  runs (Palette_edit self conf) s
       (fun s' _ =>
          palette_objs s' = palette_objs s
          /\ dom (color_objs s') = dom (color_objs s)
          /\ forall r c, color_objs s !! r = Some c ->
                         exists c', color_objs s' !! r = Some c'
                                    /\ Color.accent c' = Color.accent c).
Proof.
  intros Hself Hrules.
  eapply runs_mono; [apply Palette_edit_runs; assumption|].
  intros s' r [_ Hp _ Hc]. split; [exact Hp|]. split.
  - apply set_eq. intros x. rewrite !elem_of_dom.
    specialize (Hc x). inversion Hc as [c c' Hacc E1 E2|E1 E2].
    + split; eauto.
    + split; intros [? ?]; congruence.
  - intros x c Hx. specialize (Hc x). rewrite Hx in Hc.
    inversion Hc as [c0 c' Hacc|]. subst. exists c'. split; [reflexivity|exact Hacc].
Qed.

(** ** The four slots *)

Context `{DE : Decoder}.

Lemma ends_bind {A B} (m : M A) (k : A -> M B) s :
  ends m s -> (forall a s', ends (k a) s') -> ends (m ≫= k) s.
Proof.
  intros Hm Hk. apply runs_bind. eapply runs_mono; [exact Hm|].
  intros s' [e|a] _; [exact I|apply Hk].
Qed.

Lemma ends_lift {A} (r : result A) s : ends (lift r) s.
Proof. apply runs_lift. exact I. Qed.

Lemma ends_ret {A} (a : A) s : ends (mret a) s.
Proof. apply runs_ret. exact I. Qed.

Lemma ends_required {A} name members (dec : json -> M A) s :
  (forall v s', ends (dec v) s') -> ends (required name members dec) s.
Proof.
  intros Hdec. unfold required.
  destruct (member name members); [apply Hdec|apply ends_lift].
Qed.

Lemma ends_map_M {A B} (f : A -> M B) l s :
  (forall x s', ends (f x) s') -> ends (map_M f l) s.
Proof.
  intros Hf. revert s. induction l as [|x l IH]; intros s; simpl.
  - apply ends_ret.
  - apply ends_bind; [apply Hf|]. intros y s1.
    apply ends_bind; [apply IH|]. intros ys s2. apply ends_ret.
Qed.

Lemma ends_in_post_init (m : M unit) s : ends m s -> ends (in_post_init m) s.
Proof.
  intros (s' & r & Hm & _). unfold ends, runs, in_post_init. rewrite Hm.
  destruct r as [[]|]; eauto.
Qed.

Lemma ends_decode_Color j s : ends (decode_Color j) s.
Proof.
  destruct j; try apply ends_lift. simpl.
  apply ends_bind; [apply ends_required; intros; apply ends_lift|]. intros hex s1.
  apply ends_bind; [apply ends_required; intros; apply ends_lift|]. intros accent s2.
  destruct (member "color" members); [apply ends_lift|].
  apply runs_bind. eexists _, (ok _). split; [reflexivity|].
  apply ends_bind; [|intros; apply ends_ret].
  apply ends_in_post_init. unfold Color___post_init__.
  apply runs_bind. eapply runs_get_color; [apply lookup_insert_eq|].
  apply ends_bind; [apply ends_lift|]. intros k s3.
  eexists _, _. split; [reflexivity|exact I].
Qed.

Lemma ends_decode_colors j s : ends (decode_colors j) s.
Proof.
  destruct j; try apply ends_lift. simpl.
  apply ends_bind; [|intros; apply ends_ret].
  apply ends_map_M. intros [k v] s1.
  apply ends_bind; [apply ends_decode_Color|]. intros; apply ends_ret.
Qed.

Lemma ends_decode_Palette j s : ends (decode_Palette j) s.
Proof.
  destruct j; try apply ends_lift. simpl.
  apply ends_bind; [apply ends_required; intros; apply ends_lift|]. intros name s1.
  apply ends_bind; [apply ends_required; intros; apply ends_lift|]. intros dark s2.
  apply ends_bind; [apply ends_required; intros; apply ends_decode_colors|].
  intros colors s3. eexists _, _. split; [reflexivity|exact I].
Qed.

Lemma raises_bind {A B} (m : M A) (k : A -> M B) s :
  raises m s -> raises (m ≫= k) s.
Proof.
  intros Hm. apply runs_bind. eapply runs_mono; [exact Hm|].
  intros s' r [e ->]. eauto.
Qed.

Lemma raises_later {A B} (m : M A) (k : A -> M B) s :
  ends m s -> (forall a s', raises (k a) s') -> raises (m ≫= k) s.
Proof.
  intros Hm Hk. apply runs_bind. eapply runs_mono; [exact Hm|].
  intros s' [e|a] _; [eauto|apply Hk].
Qed.

Lemma raises_required {A} name members (dec : json -> M A) s :
  member name members = None -> raises (required name members dec) s.
Proof. intros Hnone. unfold required. rewrite Hnone. apply runs_lift. eauto. Qed.

(** C9. A palette set has the four slots [latte], [frappe], [macchiato] and
    [mocha]; [palettes] yields them in this order, the order of declaration,
    which is also the order of the members of an encoded document; and a
    document without one of the four members does not decode: [read_palettes]
    raises. *)
Theorem palettes_four_slots :
  (forall P (p : Palettes.t P),
     Palettes.palettes p
     = [("latte", Palettes.latte p); ("frappe", Palettes.frappe p);
        ("macchiato", Palettes.macchiato p); ("mocha", Palettes.mocha p)])
  /\ (forall detailed (p : Palettes.t ref) s s' j,
        JsonEncoder_encode detailed p s = Some (s', ok j) ->
        exists members,
          j = JObj members /\
          members.*1 = "version" :: (Palettes.palettes p).*1)
  /\ (forall members slot s,
        slot ∈ ["latte"; "frappe"; "macchiato"; "mocha"] ->
        member slot members = None ->
        raises (read_palettes (JObj members)) s).
Proof.
  split; [reflexivity|]. split.
  - intros detailed p s s' j. unfold JsonEncoder_encode, mbind, M_bind.
    destruct (JsonEncoder__palettes detailed p s) as [[s0 [e|obj]]|]; try discriminate.
    destruct (encode_slot _ s0) as [[s1 [e|latte]]|]; try discriminate.
    destruct (encode_slot _ s1) as [[s2 [e|frappe]]|]; try discriminate.
    destruct (encode_slot _ s2) as [[s3 [e|macchiato]]|]; try discriminate.
    destruct (encode_slot _ s3) as [[s4 [e|mocha]]|]; try discriminate.
    intros [= <- <-]. eexists. split; reflexivity.
  - intros members slot s Hslot Hnone. unfold read_palettes, decode_Palettes.
    apply raises_later; [apply ends_required; intros; apply ends_lift|].
    intros version s1.
    apply elem_of_cons in Hslot as [->|Hslot];
      [apply raises_bind, raises_required, Hnone|].
    apply raises_later; [apply ends_required; intros; apply ends_decode_Palette|].
    intros latte s2.
    apply elem_of_cons in Hslot as [->|Hslot];
      [apply raises_bind, raises_required, Hnone|].
    apply raises_later; [apply ends_required; intros; apply ends_decode_Palette|].
    intros frappe s3.
    apply elem_of_cons in Hslot as [->|Hslot];
      [apply raises_bind, raises_required, Hnone|].
    apply raises_later; [apply ends_required; intros; apply ends_decode_Palette|].
    intros macchiato s4.
    apply elem_of_cons in Hslot as [->|Hslot];
      [apply raises_bind, raises_required, Hnone|].
    apply elem_of_nil in Hslot as [].
Qed.

(** ** Flattening *)

Lemma dict_setitem_new {V} (d : dict V) k v :
  k ∉ d.*1 -> dict_setitem d k v = d ++ [(k, v)].
Proof.
  induction d as [|[k' v'] d IH]; intros Hk; simpl; [reflexivity|].
  rewrite fmap_cons, not_elem_of_cons in Hk. destruct Hk as [Hne Hk].
  rewrite bool_decide_eq_false_2 by (simpl in Hne; congruence).
  rewrite IH by exact Hk. reflexivity.
Qed.

Lemma dict_of_items_app {V} (d items : list (string * V)) :
  NoDup (d ++ items).*1 ->
  foldl (fun d kv => dict_setitem d kv.1 kv.2) d items = d ++ items.
Proof.
  revert d. induction items as [|[k v] items IH]; intros d Hnd; simpl.
  - rewrite app_nil_r. reflexivity.
  - rewrite dict_setitem_new.
    + rewrite IH; rewrite <- app_assoc; [reflexivity|exact Hnd].
    + rewrite fmap_app in Hnd. apply NoDup_app in Hnd as (_ & Hd & _).
      intros Hk. apply (Hd k Hk). left.
Qed.

(** A dict built from items with distinct keys has these items, in order. *)
Lemma dict_of_items_NoDup {V} (items : list (string * V)) :
  NoDup items.*1 -> dict_of_items items = items.
Proof. intros Hnd. apply (dict_of_items_app [] items). exact Hnd. Qed.

(** A comprehension whose element expression only reads the store. *)
Lemma runs_map_M_reads {A B} (f : A -> M B) (g : A -> B) l s :
  (forall x, x ∈ l -> f x s = Some (s, ok (g x))) ->
  map_M f l s = Some (s, ok (g <$> l)).
Proof.
  induction l as [|x l IH]; intros Hf; simpl; [reflexivity|].
  unfold mbind, M_bind. rewrite Hf by left.
  rewrite IH; [reflexivity|].
  intros y Hy. apply Hf. right. exact Hy.
Qed.

Lemma Palette_to_hex_reads self p s :
  palette_objs s !! self = Some p ->
  NoDup (Palette.colors p).*1 ->
  (forall k r, (k, r) ∈ Palette.colors p -> is_Some (color_objs s !! r)) ->
  Palette_to_hex self s
  = Some (s, ok (Palette.mk (Palette.name p) (Palette.dark p)
                            (hex_item s <$> Palette.colors p))).
Proof.
  intros Hp Hnd Hcolors. unfold Palette_to_hex, mbind, M_bind, get_palette.
  rewrite Hp. simpl.
  rewrite (runs_map_M_reads _ (hex_item s)).
  - simpl. rewrite dict_of_items_NoDup; [reflexivity|].
    rewrite <- list_fmap_compose. exact Hnd.
  - intros [k r] Hin. destruct (Hcolors k r Hin) as [c Hc].
    unfold get_color, hex_item. simpl. rewrite Hc. reflexivity.
Qed.

(** ** Loops that end without an exception *)

(** A loop whose turns all end normally: [I done] holds when the elements
    [done] have had their turn. *)
Lemma runs_for_each_steps {A} (I : list A -> store -> Prop) (body : A -> M unit)
    (done l : list A) s :
  I done s ->
  (forall pre x s', (exists rest, done ++ l = pre ++ x :: rest) -> I pre s' ->
     runs (body x) s' (fun s'' r => r = ok tt /\ I (pre ++ [x]) s'')) ->
  runs (for_each l body) s (fun s' r => r = ok tt /\ I (done ++ l) s').
Proof.
  revert done s. induction l as [|x l IH]; intros done s Hs Hbody; simpl.
  - apply runs_ret. rewrite app_nil_r. auto.
  - apply runs_bind. eapply runs_mono; [apply (Hbody done x s); eauto|].
    intros s1 r [-> Hs1].
    replace (done ++ x :: l) with ((done ++ [x]) ++ l)
      by (rewrite <- app_assoc; reflexivity).
    apply IH; [exact Hs1|].
    intros pre y s2 [rest Hrest]. apply Hbody. exists rest.
    rewrite <- Hrest, <- app_assoc. reflexivity.
Qed.

Lemma recolored_nil g s : recolored g [] s s.
Proof. split; [apply edit_frame_refl|]. intros r. reflexivity. Qed.

Lemma recolored_snoc g refs r c s s1 s2 :
  r ∉ refs ->
  recolored g refs s s1 ->
  edit_frame s1 s2 ->
  color_objs s1 !! r = Some c ->
  color_objs s2 = <[r := g c]> (color_objs s1) ->
  recolored g (refs ++ [r]) s s2.
Proof.
  intros Hr [Hs1 Hc1] Hs2 Hrc Hc2. split; [eapply edit_frame_trans; eassumption|].
  intros x. rewrite Hc2. destruct (decide (x = r)) as [->|Hx].
  - rewrite lookup_insert_eq.
    rewrite bool_decide_eq_true_2 by (apply elem_of_app; right; left).
    specialize (Hc1 r). rewrite bool_decide_eq_false_2 in Hc1 by exact Hr.
    rewrite <- Hc1, Hrc. reflexivity.
  - rewrite lookup_insert_ne by congruence. rewrite Hc1.
    apply (f_equal (fun b : bool => if b then _ else _)).
    apply bool_decide_ext. rewrite elem_of_app, list_elem_of_singleton. tauto.
Qed.

(** A loop over distinct colours, each of whose turns changes its colour by
    [g], changes these colours by [g]. *)
Lemma for_each_recolors {A} (key : A -> ref) g (body : A -> M unit) l s :
  NoDup (key <$> l) ->
  (forall x s', x ∈ l -> edit_frame s s' ->
     color_objs s' !! key x = color_objs s !! key x ->
     runs (body x) s'
          (fun s'' r => r = ok tt /\ edit_frame s' s'' /\
                        exists c, color_objs s' !! key x = Some c /\
                                  color_objs s'' = <[key x := g c]> (color_objs s'))) ->
  runs (for_each l body) s (fun s' r => r = ok tt /\ recolored g (key <$> l) s s').
Proof.
  intros Hnd Hbody.
  apply (runs_for_each_steps (fun done s' => recolored g (key <$> done) s s')
                             body [] l s); [apply recolored_nil|].
  intros pre x s1 [rest Hl] Hs1. simpl in Hl. subst l.
  rewrite fmap_app, fmap_cons in Hnd.
  apply NoDup_app in Hnd as (_ & Hpre & _).
  assert (Hx : key x ∉ key <$> pre).
  { intros Hin. apply (Hpre _ Hin). left. }
  eapply runs_mono; [apply Hbody|].
  - apply elem_of_app. right. left.
  - apply Hs1.
  - destruct Hs1 as [_ Hc1]. rewrite Hc1.
    rewrite bool_decide_eq_false_2 by exact Hx. reflexivity.
  - intros s2 r (-> & Hs2 & c & Hc & Hc2). split; [reflexivity|].
    rewrite fmap_app. simpl.
    eapply recolored_snoc; eassumption.
Qed.

(** ** Rules without a selector *)

Lemma no_selector_frame s s' x :
  edit_frame s s' -> no_selector s x -> no_selector s' x.
Proof.
  intros Hs' (e & He & Hn & Ha). exists e. split; [|auto].
  eapply lookup_weaken; [exact He|apply (frame_edits _ _ Hs')].
Qed.

Lemma no_selector_derived s s' inverse x r :
  derived s s' inverse x r -> no_selector s x -> no_selector s' r.
Proof.
  intros (_ & e & Hx & Hr) (e' & Hx' & Hn & Ha).
  assert (e' = e) as -> by congruence.
  eexists. split; [exact Hr|]. simpl. auto.
Qed.

(** No rule without a selector is applied to a colour. *)
Lemma for_each_no_selector (edits : list ref) name color s :
  (forall x, x ∈ edits -> no_selector s x) ->
  is_Some (color_objs s !! color) ->
  for_each edits (fun edit =>
      e ← get_edit edit;
      c ← get_color color;
      if Edit.applies e name (Color.accent c)
      then Color_edit color (Edit.variable e) edit
      else mret tt) s
  = Some (s, ok tt).
Proof.
  intros Hedits [c Hc]. induction edits as [|x edits IH]; simpl; [reflexivity|].
  destruct (Hedits x) as (e & He & Hn & Ha); [left|].
  unfold mbind, M_bind, get_edit, get_color. rewrite He. simpl. rewrite Hc. simpl.
  unfold Edit.applies. rewrite Hn, Ha. simpl.
  apply IH. intros y Hy. apply Hedits. right. exact Hy.
Qed.

Lemma Palette_edit_color_no_selector conf edits name color c k s :
  (forall x, x ∈ edits -> no_selector s x) ->
  color_objs s !! color = Some c ->
  _Color_convert (Color.color c) (Config.color_space conf) = ok k ->
  runs (Palette_edit_color conf edits name color) s
       (fun s' r => r = ok tt /\ edit_frame s s' /\
                    exists c0, color_objs s !! color = Some c0 /\
                               color_objs s' = <[color := in_space conf c0]> (color_objs s)).
Proof.
  intros Hedits Hc Hk. unfold Palette_edit_color.
  apply runs_bind, (runs_get_color _ c); [exact Hc|].
  apply runs_bind, runs_lift. rewrite Hk.
  apply runs_bind, (runs_put_color _ c); [exact Hc|reflexivity|].
  intros s1 Hs1 Hc1 He1.
  eexists s1, (ok tt). split.
  - apply for_each_no_selector.
    + intros x Hx. eapply no_selector_frame; [exact Hs1|auto].
    + rewrite Hc1, lookup_insert_eq. eauto.
  - split; [reflexivity|]. split; [exact Hs1|].
    exists c. split; [exact Hc|]. rewrite Hc1. unfold in_space. rewrite Hk.
    reflexivity.
Qed.

Lemma Color_update_round_trip conf c self s :
  round_trip conf c ->
  color_objs s !! self = Some (in_space conf c) ->
  runs (Color_update self) s
       (fun s' r => r = ok tt /\ edit_frame s s' /\
                    exists c0, color_objs s !! self = Some c0 /\
                               color_objs s' = <[self := id c0]> (color_objs s)).
Proof.
  intros (k & k' & Hk & Hk' & Hhex) Hc. unfold in_space in Hc. rewrite Hk in Hc.
  unfold Color_update.
  apply runs_bind, (runs_get_color _ _ _ _ Hc).
  apply runs_bind, runs_lift. simpl. rewrite Hk'. simpl. rewrite Hhex.
  eapply runs_put_color; [exact Hc|reflexivity|].
  intros s1 Hs1 Hc1 _. split; [reflexivity|]. split; [exact Hs1|].
  eexists. split; [exact Hc|]. rewrite Hc1. reflexivity.
Qed.

(** With rules without a selector, and colours that the engine takes round,
    [Palette.edit] ends normally and has put the working colour of each
    colour of the variant in the space of the configuration, and nothing else. *)
Lemma Palette_edit_no_selector self p conf s :
  palette_objs s !! self = Some p ->
  NoDup (Palette.colors p).*2 ->
  (forall x, x ∈ Config.edits conf -> no_selector s x) ->
  (forall r, r ∈ (Palette.colors p).*2 ->
             exists c, color_objs s !! r = Some c /\ round_trip conf c) ->
  runs (Palette_edit self conf) s
       (fun s' r => r = ok tt /\
                    recolored (in_space conf) (Palette.colors p).*2 s s').
Proof.
  intros Hp Hnd Hrules Hcolors. unfold Palette_edit, Palette_edit_loops.
  apply runs_bind.
  eapply runs_mono; [apply (Palette_edit_edits_runs self p); [exact Hp|]|].
  { intros x Hx. destruct (Hrules x Hx) as (e & He & _). eauto. }
  intros s1 r (refs & -> & Hs1 & Hc1 & Hrefs).
  assert (Hrefs1 : forall x, x ∈ refs -> no_selector s1 x).
  { intros x Hx. apply list_elem_of_lookup in Hx as [i Hi].
    destruct (Forall2_lookup_r _ _ _ _ _ Hrefs Hi) as (y & Hy & Hd).
    eapply no_selector_derived; [exact Hd|].
    apply Hrules. eapply list_elem_of_lookup_2. exact Hy. }
  assert (Hp1 : palette_objs s1 !! self = Some p).
  { rewrite (frame_palettes _ _ Hs1). exact Hp. }
  apply runs_bind, (runs_get_palette _ p); [exact Hp1|].
  apply runs_bind.
  eapply runs_mono;
    [apply (for_each_recolors snd (in_space conf)); [exact Hnd|]|].
  - intros [name color] s2 Hin Hs2 Hsame. simpl in Hsame |- *.
    destruct (Hcolors color) as (c & Hc & k & k' & Hk & _).
    { apply list_elem_of_fmap. exists (name, color). auto. }
    eapply runs_mono; [eapply (Palette_edit_color_no_selector _ _ _ _ c k)|].
    + intros x Hx. eapply no_selector_frame; [exact Hs2|auto].
    + rewrite Hsame, Hc1. exact Hc.
    + exact Hk.
    + intros s3 r3 H3. exact H3.
  - intros s2 r2 [-> [Hs2 Hc2]].
    assert (Hp2 : palette_objs s2 !! self = Some p).
    { rewrite (frame_palettes _ _ Hs2). exact Hp1. }
    apply runs_bind, (runs_get_palette _ p); [exact Hp2|].
    eapply runs_mono;
      [apply (for_each_recolors id id);
       [rewrite list_fmap_id; exact Hnd|]|].
    + intros color s3 Hin Hs3 Hsame. change (id color) with color in Hsame |- *.
      destruct (Hcolors color Hin) as (c & Hc & Hround).
      eapply (Color_update_round_trip conf c); [exact Hround|].
      rewrite Hsame, Hc2. unfold dict_values in Hin.
      rewrite bool_decide_eq_true_2 by exact Hin.
      rewrite Hc1, Hc. reflexivity.
    + intros s3 r3 [-> [Hs3 Hc3]]. split; [reflexivity|]. split.
      * eapply edit_frame_trans; [exact Hs1|].
        eapply edit_frame_trans; eassumption.
      * intros x. rewrite Hc3, list_fmap_id. unfold dict_values.
        rewrite Hc2, Hc1.
        destruct (bool_decide _); [|reflexivity].
        rewrite option_fmap_id. reflexivity.
Qed.

(** ** The flattened document *)

Lemma JsonEncoder__palettes_flat p s :
  Forall (variant_ok s) (variants p) ->
  JsonEncoder__palettes false p s
  = Some (s, ok (Palettes.mk (Palettes.version p)
                             (inr (flat_slot s (Palettes.latte p)))
                             (inr (flat_slot s (Palettes.frappe p)))
                             (inr (flat_slot s (Palettes.macchiato p)))
                             (inr (flat_slot s (Palettes.mocha p))))).
Proof.
  intros Hok. unfold JsonEncoder__palettes, mbind, M_bind.
  rewrite (runs_map_M_reads _ (fun kv => (kv.1, flat_slot s kv.2))).
  - reflexivity.
  - intros [k v] Hin.
    assert (Hv : variant_ok s v).
    { rewrite Forall_forall in Hok. apply Hok. unfold variants.
      apply list_elem_of_fmap. exists (k, v). auto. }
    destruct Hv as (q & Hq & Hnd & Hcolors).
    rewrite (Palette_to_hex_reads v q) by assumption.
    unfold flat_slot. simpl. rewrite Hq. reflexivity.
Qed.

Lemma JsonEncoder_encode_flat p s :
  Forall (variant_ok s) (variants p) ->
  JsonEncoder_encode false p s = Some (s, ok (flat_document s p)).
Proof.
  intros Hok. unfold JsonEncoder_encode, mbind, M_bind.
  rewrite JsonEncoder__palettes_flat by exact Hok. reflexivity.
Qed.

(** The flattened document shows the palette objects and the [hex] of the
    colours, and nothing else of the store. *)
Lemma flat_document_ext s s' p :
  palette_objs s' = palette_objs s ->
  (forall r, Color.hex <$> color_objs s' !! r = Color.hex <$> color_objs s !! r) ->
  flat_document s' p = flat_document s p.
Proof.
  intros Hp Hhex.
  assert (Hitem : forall kr, hex_item s' kr = hex_item s kr).
  { intros [k r]. unfold hex_item. simpl. specialize (Hhex r).
    destruct (color_objs s' !! r), (color_objs s !! r); simpl in Hhex;
      congruence. }
  assert (Hslot : forall v, flat_slot s' v = flat_slot s v).
  { intros v. unfold flat_slot. rewrite Hp.
    destruct (palette_objs s !! v); [|reflexivity].
    apply list_fmap_ext. intros i kr _. apply Hitem. }
  unfold flat_document. rewrite !Hslot. reflexivity.
Qed.

(** ** The detailed document *)

Lemma encode_Palette_reads v s :
  variant_ok s v -> encode_Palette v s = Some (s, ok (detailed_slot s v)).
Proof.
  intros (p & Hp & _ & Hcolors).
  unfold encode_Palette, mbind, M_bind, get_palette. rewrite Hp. simpl.
  rewrite (runs_map_M_reads _ (detailed_item s)).
  - unfold detailed_slot. rewrite Hp. reflexivity.
  - intros [k r] Hin. destruct (Hcolors k r Hin) as [c Hc].
    unfold encode_Color, mbind, M_bind, get_color, detailed_item. simpl.
    rewrite Hc. reflexivity.
Qed.

Lemma JsonEncoder_encode_reads detailed p s :
  Forall (variant_ok s) (variants p) ->
  JsonEncoder_encode detailed p s = Some (s, ok (document detailed s p)).
Proof.
  intros Hok. destruct detailed; [|apply JsonEncoder_encode_flat; exact Hok].
  unfold variants in Hok.
  change (Palettes.palettes p).*2
    with [Palettes.latte p; Palettes.frappe p; Palettes.macchiato p;
          Palettes.mocha p] in Hok.
  rewrite !Forall_cons in Hok. destruct Hok as (H1 & H2 & H3 & H4 & _).
  unfold JsonEncoder_encode, mbind, M_bind. simpl.
  rewrite (encode_Palette_reads _ _ H1), (encode_Palette_reads _ _ H2),
    (encode_Palette_reads _ _ H3), (encode_Palette_reads _ _ H4).
  reflexivity.
Qed.

Lemma document_ext detailed s s' p :
  palette_objs s' = palette_objs s ->
  (forall r, option_Forall2 (same_view detailed)
                            (color_objs s !! r) (color_objs s' !! r)) ->
  document detailed s' p = document detailed s p.
Proof.
  intros Hp Hview. destruct detailed; simpl.
  - assert (Hitem : forall kr, detailed_item s' kr = detailed_item s kr).
    { intros [k r]. unfold detailed_item. simpl.
      destruct (Hview r) as [c c' (Hhex & Hacc & Hstr)|]; [|reflexivity].
      unfold color_json. rewrite Hhex, Hacc, Hstr; reflexivity. }
    assert (Hslot : forall v, detailed_slot s' v = detailed_slot s v).
    { intros v. unfold detailed_slot. rewrite Hp.
      destruct (palette_objs s !! v); [|reflexivity].
      rewrite (list_fmap_ext (detailed_item s') (detailed_item s)
                 (Palette.colors t)); [reflexivity|].
      intros i kr _. apply Hitem. }
    unfold detailed_document. rewrite !Hslot. reflexivity.
  - apply flat_document_ext; [exact Hp|].
    intros r. destruct (Hview r) as [c c' (Hhex & _)|]; simpl; congruence.
Qed.

(** ** What flattening yields *)

Lemma hex_item_suffixed s (colors : dict ref) :
  (forall k r, (k, r) ∈ colors -> is_Some (color_objs s !! r)) ->
  alpha_suffixed s colors (hex_item s <$> colors).
Proof.
  unfold alpha_suffixed.
  induction colors as [|[k r] colors IH]; intros Hcolors; simpl; constructor.
  - split; [reflexivity|]. destruct (Hcolors k r) as [c Hc]; [left|].
    exists c. unfold hex_item. simpl. rewrite Hc. auto.
  - apply IH. intros k' r' Hin. apply (Hcolors k' r'). right. exact Hin.
Qed.

(** C7. Flattening maps each colour name of a variant to the [hex] of the
    colour followed by [ff], and changes nothing in the store: [to_hex] for
    one variant, and [JsonEncoder._palettes] of the default mode for the four
    slots of a palette set. *)
Theorem to_hex_appends_alpha s :
  (forall self p,
     palette_objs s !! self = Some p ->
     NoDup (Palette.colors p).*1 ->
     (forall k r, (k, r) ∈ Palette.colors p -> is_Some (color_objs s !! r)) ->
     runs (Palette_to_hex self) s
          (fun s' r =>
             s' = s /\
             exists flat, r = ok flat /\
                          alpha_suffixed s (Palette.colors p) (Palette.colors flat)))
  /\ (forall ps,
        Forall (variant_ok s) (variants ps) ->
        runs (JsonEncoder__palettes false ps) s
             (fun s' r =>
                s' = s /\
                exists obj, r = ok obj /\
                  Forall2 (fun v slot =>
                             exists p flat,
                               palette_objs s !! v = Some p /\
                               slot = inr flat /\
                               alpha_suffixed s (Palette.colors p) flat)
                          (variants ps) (Palettes.palettes obj).*2)).
Proof.
  split.
  - intros self p Hp Hnd Hcolors. eexists s, _.
    split; [apply (Palette_to_hex_reads self p); assumption|].
    split; [reflexivity|]. eexists. split; [reflexivity|].
    simpl. apply hex_item_suffixed. exact Hcolors.
  - intros ps Hok. eexists s, _.
    split; [apply JsonEncoder__palettes_flat; exact Hok|].
    split; [reflexivity|]. eexists. split; [reflexivity|].
    assert (Hslot : forall v, variant_ok s v ->
              exists p flat, palette_objs s !! v = Some p /\
                             @inr ref _ (flat_slot s v) = inr flat /\
                             alpha_suffixed s (Palette.colors p) flat).
    { intros v (q & Hq & _ & Hcolors). exists q, (flat_slot s v).
      split; [exact Hq|]. split; [reflexivity|].
      unfold flat_slot. rewrite Hq. apply hex_item_suffixed. exact Hcolors. }
    unfold variants in Hok |- *.
    change (Palettes.palettes ps).*2
      with [Palettes.latte ps; Palettes.frappe ps; Palettes.macchiato ps;
            Palettes.mocha ps] in Hok |- *.
    rewrite !Forall_cons in Hok. destruct Hok as (H1 & H2 & H3 & H4 & _).
    repeat constructor; apply Hslot; assumption.
Qed.

(** ** Rules that are never applied *)

Lemma same_outcome_refl {A} (o : option (store * result A)) : same_outcome o o.
Proof. destruct o; constructor. repeat split. Qed.

Lemma blind_ret {A} (a : A) : blind (mret a).
Proof. intros s1 s2 Hs. constructor. auto. Qed.

Lemma blind_lift {A} (r : result A) : blind (lift r).
Proof. intros s1 s2 Hs. constructor. auto. Qed.

Lemma blind_bind {A B} (m : M A) (k : A -> M B) :
  blind m -> (forall a, blind (k a)) -> blind (m ≫= k).
Proof.
  intros Hm Hk s1 s2 Hs. unfold mbind, M_bind.
  destruct (Hm s1 s2 Hs) as [[a1 r1] [a2 r2] [Ha Hr]|]; [|constructor].
  simpl in Ha, Hr. subst r2. destruct r1 as [e|a].
  - constructor. auto.
  - apply Hk. exact Ha.
Qed.

Lemma blind_get_color r : blind (get_color r).
Proof.
  intros s1 s2 (Hc & Hp & Hw). unfold get_color. rewrite Hc.
  destruct (color_objs s2 !! r); constructor. repeat split; assumption.
Qed.

Lemma blind_get_palette r : blind (get_palette r).
Proof.
  intros s1 s2 (Hc & Hp & Hw). unfold get_palette. rewrite Hp.
  destruct (palette_objs s2 !! r); constructor. repeat split; assumption.
Qed.

Lemma blind_put_color r c : blind (put_color r c).
Proof.
  intros s1 s2 (Hc & Hp & Hw). constructor. simpl.
  repeat split; [rewrite Hc; reflexivity|assumption|assumption].
Qed.

Lemma blind_for_each {A} (l : list A) (body : A -> M unit) :
  (forall x, blind (body x)) -> blind (for_each l body).
Proof.
  intros Hbody. induction l as [|x l IH]; simpl.
  - apply blind_ret.
  - apply blind_bind; [apply Hbody|]. intros _. exact IH.
Qed.

Lemma blind_Color_update r : blind (Color_update r).
Proof.
  apply blind_bind; [apply blind_get_color|]. intros c.
  apply blind_bind; [apply blind_lift|]. intros h. apply blind_put_color.
Qed.

Lemma blind_Palette_edit_color conf name color :
  blind (Palette_edit_color conf [] name color).
Proof.
  apply blind_bind; [apply blind_get_color|]. intros c.
  apply blind_bind; [apply blind_lift|]. intros k.
  apply blind_bind; [apply blind_put_color|]. intros _. apply blind_ret.
Qed.

(** The first loop does with rules without a selector what it does without
    rules. *)
Lemma Palette_edit_color_without_rules conf edits name color s :
  (forall x, x ∈ edits -> no_selector s x) ->
  Palette_edit_color conf edits name color s
  = Palette_edit_color conf [] name color s.
Proof.
  intros Hedits. unfold Palette_edit_color, mbind, M_bind, get_color, lift.
  destruct (color_objs s !! color) as [c|]; [simpl|reflexivity].
  destruct (_Color_convert _ _) as [e|k]; [reflexivity|]. simpl.
  apply for_each_no_selector.
  - exact Hedits.
  - simpl. rewrite lookup_insert_eq. eauto.
Qed.

Lemma Palette_edit_color_edits conf name color s s' r :
  Palette_edit_color conf [] name color s = Some (s', r) ->
  edit_objs s' = edit_objs s.
Proof.
  unfold Palette_edit_color, mbind, M_bind, get_color, lift.
  destruct (color_objs s !! color) as [c|]; [simpl|discriminate].
  destruct (_Color_convert _ _) as [e|k]; simpl; intros [= <- _]; reflexivity.
Qed.

Lemma first_loop_without_rules conf edits (l : list (string * ref)) s :
  (forall x, x ∈ edits -> no_selector s x) ->
  for_each l (fun '(name, color) => Palette_edit_color conf edits name color) s
  = for_each l (fun '(name, color) => Palette_edit_color conf [] name color) s.
Proof.
  revert s. induction l as [|[name color] l IH]; intros s Hedits; simpl;
    [reflexivity|].
  unfold mbind, M_bind.
  rewrite (Palette_edit_color_without_rules _ _ _ _ _ Hedits).
  destruct (Palette_edit_color conf [] name color s) as [[s' [e|[]]]|] eqn:Hs';
    try reflexivity.
  apply IH. intros x Hx. destruct (Hedits x Hx) as (f & Hf & Hsel).
  exists f. split; [|exact Hsel].
  rewrite (Palette_edit_color_edits _ _ _ _ _ _ Hs'). exact Hf.
Qed.

Lemma bind_ok {A B} (m : M A) (k : A -> M B) s s' a :
  m s = Some (s', ok a) -> (m ≫= k) s = k a s'.
Proof. intros Hm. unfold mbind, M_bind. rewrite Hm. reflexivity. Qed.

Lemma bind_none {A B} (m : M A) (k : A -> M B) s :
  m s = None -> (m ≫= k) s = None.
Proof. intros Hm. unfold mbind, M_bind. rewrite Hm. reflexivity. Qed.

Lemma bind_same {A B} (m1 m2 : M A) (k : A -> M B) s :
  m1 s = m2 s -> (m1 ≫= k) s = (m2 ≫= k) s.
Proof. intros Hm. unfold mbind, M_bind. rewrite Hm. reflexivity. Qed.

(** ** Whether a rule is applied *)

Lemma bind_raise {A B} (m : M A) (k : A -> M B) s s' e :
  m s = Some (s', raise e) -> (m ≫= k) s = Some (s', raise e).
Proof. intros Hm. unfold mbind, M_bind. rewrite Hm. reflexivity. Qed.

(** A loop over a list with one more element at its end. *)
Lemma for_each_snoc {A} (l : list A) (x : A) (body : A -> M unit) s :
  for_each (l ++ [x]) body s = (for_each l body;; body x) s.
Proof.
  revert s. induction l as [|y l IH]; intros s; simpl; unfold mbind, M_bind.
  - unfold mret, M_ret. destruct (body x s) as [[s' [e|[]]]|]; reflexivity.
  - destruct (body y s) as [[s' [e|[]]]|]; try reflexivity. apply IH.
Qed.

(** The turn of the rule [x] in the inner loop of [Palette.edit], lines 91
    and 92, for the colour [color] named [name]. *)
Lemma Palette_edit_color_snoc conf edits x name color s :
  Palette_edit_color conf (edits ++ [x]) name color s
  = (Palette_edit_color conf edits name color;;
     e ← get_edit x;
     c ← get_color color;
     if Edit.applies e name (Color.accent c)
     then Color_edit color (Edit.variable e) x
     else mret tt) s.
Proof.
  unfold Palette_edit_color, mbind, M_bind.
  destruct (get_color color s) as [[s0 [e0|c]]|]; try reflexivity.
  destruct (lift _ s0) as [[s1 [e1|k]]|]; try reflexivity.
  destruct (put_color _ _ s1) as [[s2 [e2|[]]]|]; try reflexivity.
  apply for_each_snoc.
Qed.


Lemma blind_Palette_edit_loops self conf : blind (Palette_edit_loops self conf []).
Proof.
  apply blind_bind; [apply blind_get_palette|]. intros p.
  apply blind_bind.
  - apply blind_for_each. intros [name color]. apply blind_Palette_edit_color.
  - intros _. apply blind_bind; [apply blind_get_palette|]. intros q.
    apply blind_for_each. intros color. apply blind_Color_update.
Qed.

Lemma Palette_edit_loops_without_rules self conf edits s :
  (forall x, x ∈ edits -> no_selector s x) ->
  Palette_edit_loops self conf edits s = Palette_edit_loops self conf [] s.
Proof.
  intros Hedits. unfold Palette_edit_loops.
  destruct (palette_objs s !! self) as [p|] eqn:Hp.
  - assert (Hget : get_palette self s = Some (s, ok p)).
    { unfold get_palette. rewrite Hp. reflexivity. }
    rewrite !(bind_ok _ _ _ _ _ Hget).
    apply bind_same, first_loop_without_rules. exact Hedits.
  - assert (Hget : get_palette self s = None).
    { unfold get_palette. rewrite Hp. reflexivity. }
    rewrite !(bind_none _ _ _ Hget). reflexivity.
Qed.

(** [Palette.edit] with rules that have neither selector does what it does
    with no rule at all, but for the copies of the rules that it makes. *)
Lemma Palette_edit_without_rules self conf s :
  (forall x, x ∈ Config.edits conf -> no_selector s x) ->
  same_outcome (Palette_edit self conf s)
               (Palette_edit self (without_rules conf) s).
Proof.
  intros Hrules.
  destruct (palette_objs s !! self) as [p|] eqn:Hp.
  - destruct (Palette_edit_edits_runs self p conf s Hp)
      as (s1 & r & Hedits & refs & -> & Hs1 & Hc1 & Hrefs).
    { intros x Hx. destruct (Hrules x Hx) as (e & He & _). eauto. }
    assert (Hrefs1 : forall x, x ∈ refs -> no_selector s1 x).
    { intros x Hx. apply list_elem_of_lookup in Hx as [i Hi].
      destruct (Forall2_lookup_r _ _ _ _ _ Hrefs Hi) as (y & Hy & Hd).
      eapply no_selector_derived; [exact Hd|].
      apply Hrules. eapply list_elem_of_lookup_2. exact Hy. }
    assert (Hnone : Palette_edit_edits self (without_rules conf) s
                    = Some (s, ok [])).
    { unfold Palette_edit_edits, mbind, M_bind, get_palette. rewrite Hp.
      reflexivity. }
    unfold Palette_edit.
    rewrite (bind_ok _ _ _ _ _ Hedits), (bind_ok _ _ _ _ _ Hnone).
    rewrite (Palette_edit_loops_without_rules _ _ _ _ Hrefs1).
    apply (blind_Palette_edit_loops self conf).
    split; [exact Hc1|].
    split; [apply (frame_palettes _ _ Hs1)|apply (frame_written _ _ Hs1)].
  - unfold Palette_edit, Palette_edit_edits, mbind, M_bind, get_palette.
    rewrite Hp. constructor.
Qed.

(** ** The two snapshots *)

Lemma in_space_hex conf c : Color.hex (in_space conf c) = Color.hex c.
Proof. unfold in_space. destruct (_Color_convert _ _); reflexivity. Qed.

Lemma in_space_accent conf c : Color.accent (in_space conf c) = Color.accent c.
Proof. unfold in_space. destruct (_Color_convert _ _); reflexivity. Qed.

Lemma colors_of_app s l1 l2 : colors_of s (l1 ++ l2) = colors_of s l1 ++ colors_of s l2.
Proof.
  induction l1 as [|v l1 IH]; simpl; [reflexivity|].
  rewrite IH, app_assoc. reflexivity.
Qed.

Lemma recolored_app g refs1 refs2 s s1 s2 :
  (forall r, r ∈ refs1 -> r ∉ refs2) ->
  recolored g refs1 s s1 -> recolored g refs2 s1 s2 ->
  recolored g (refs1 ++ refs2) s s2.
Proof.
  intros Hdisj [Hs1 Hc1] [Hs2 Hc2]. split; [eapply edit_frame_trans; eassumption|].
  intros r. rewrite Hc2, Hc1.
  destruct (decide (r ∈ refs2)) as [H2|H2].
  - rewrite (bool_decide_eq_true_2 _ H2).
    rewrite bool_decide_eq_false_2 by (intros H1; exact (Hdisj r H1 H2)).
    rewrite bool_decide_eq_true_2 by (apply elem_of_app; auto). reflexivity.
  - rewrite (bool_decide_eq_false_2 _ H2).
    apply (f_equal (fun b : bool => if b then _ else _)).
    apply bool_decide_ext. rewrite elem_of_app. tauto.
Qed.

Lemma recolored_keeps g refs s s' :
  (forall c, Color.hex (g c) = Color.hex c) ->
  (forall c, Color.accent (g c) = Color.accent c) ->
  recolored g refs s s' ->
  forall r c, color_objs s !! r = Some c ->
              exists c', color_objs s' !! r = Some c' /\
                         Color.hex c' = Color.hex c /\
                         Color.accent c' = Color.accent c.
Proof.
  intros Hhex Hacc [_ Hc] r c Hr. rewrite Hc, Hr.
  destruct (bool_decide _); simpl; eauto.
Qed.

(** The loop of [main] over the variants, for rules without a selector and
    colours that the engine takes round. *)
Lemma edits_no_selector conf (vs : list (string * ref)) s :
  Forall (variant_ok s) vs.*2 ->
  NoDup (colors_of s vs.*2) ->
  (forall x, x ∈ Config.edits conf -> no_selector s x) ->
  (forall r, r ∈ colors_of s vs.*2 ->
             exists c, color_objs s !! r = Some c /\ round_trip conf c) ->
  runs (for_each vs (fun '(_, palette) => Palette_edit palette conf)) s
       (fun s' r => r = ok tt /\
                    recolored (in_space conf) (colors_of s vs.*2) s s').
Proof.
  intros Hok Hnd Hrules Hround.
  apply (runs_for_each_steps
           (fun done s' => recolored (in_space conf) (colors_of s done.*2) s s')
           _ [] vs s); [apply recolored_nil|].
  intros pre [name v] s1 [rest Hvs] Hs1. simpl in Hvs. subst vs.
  rewrite fmap_app, fmap_cons, colors_of_app in Hnd, Hround. simpl in Hnd, Hround.
  rewrite fmap_app, fmap_cons, Forall_app, Forall_cons in Hok.
  destruct Hok as (_ & (p & Hp & _ & _) & _). simpl in Hp.
  assert (Hv : variant_colors s v = (Palette.colors p).*2).
  { unfold variant_colors. rewrite Hp. reflexivity. }
  rewrite Hv in Hnd, Hround.
  apply NoDup_app in Hnd as (_ & Hdisj & Hnd).
  apply NoDup_app in Hnd as (Hnd & _ & _).
  destruct Hs1 as [Hf1 Hc1].
  eapply runs_mono; [apply (Palette_edit_no_selector v p)|].
  - rewrite (frame_palettes _ _ Hf1). exact Hp.
  - exact Hnd.
  - intros x Hx. eapply no_selector_frame; [exact Hf1|auto].
  - intros r Hr. rewrite Hc1.
    rewrite bool_decide_eq_false_2.
    + apply Hround. rewrite !elem_of_app. auto.
    + intros Hpre. apply (Hdisj r Hpre). apply elem_of_app. auto.
  - intros s2 r2 [-> Hs2]. split; [reflexivity|].
    rewrite fmap_app, colors_of_app. simpl. rewrite Hv, app_nil_r.
    eapply recolored_app; [|split; eassumption|exact Hs2].
    intros r Hpre Hr. apply (Hdisj r Hpre). apply elem_of_app. auto.
Qed.

Lemma variant_ok_frame s s' v : edit_frame s s' -> variant_ok s v -> variant_ok s' v.
Proof.
  intros Hs' (p & Hp & Hnd & Hcolors). exists p.
  split; [rewrite (frame_palettes _ _ Hs'); exact Hp|]. split; [exact Hnd|].
  intros k r Hin. eapply edit_frame_color; [exact Hs'|eauto].
Qed.

(** C6, as the code has it. Rules that have neither selector are never
    applied: with them [Palette.edit] does to a variant what it does with an
    empty list of rules, which is to take each working colour to the space of
    the configuration and to derive each [hex] from it again. With an engine
    that takes the working colour of every colour of the palette set to that
    space and from there to the [hex] the colour has (and, for the detailed
    mode, prints the working colour as before), the edits end normally, no
    palette object is changed, every colour keeps its [hex] and its accent
    flag, and the customized document is the original one. *)
Theorem main_snapshots_no_selector detailed conf ps s :
  (forall x, x ∈ Config.edits conf -> no_selector s x) ->
  (forall self,
     same_outcome (Palette_edit self conf s)
                  (Palette_edit self (without_rules conf) s))
  /\ (Forall (variant_ok s) (variants ps) ->
      NoDup (colors_of s (variants ps)) ->
      (forall r, r ∈ colors_of s (variants ps) ->
                 exists c, color_objs s !! r = Some c /\ round_trip conf c /\
                           (detailed = true -> prints_same conf c)) ->
      runs (main_snapshots detailed conf ps) s
           (fun s' r =>
              r = ok tt
              /\ (exists j, written s'
                            = written s ++ [("original", j); ("customized", j)])
              /\ palette_objs s' = palette_objs s
              /\ forall r c, color_objs s !! r = Some c ->
                             exists c', color_objs s' !! r = Some c' /\
                                        Color.hex c' = Color.hex c /\
                                        Color.accent c' = Color.accent c)).
Proof.
  intros Hrules. split.
  { intros self. apply Palette_edit_without_rules. exact Hrules. }
  intros Hok Hnd Hround. unfold main_snapshots, JsonEncoder_write.
  apply runs_bind, runs_bind.
  eexists s, _. split; [apply JsonEncoder_encode_reads; exact Hok|].
  eexists _, (ok tt). split; [reflexivity|].
  set (s0 := mkStore _ _ _ _).
  apply runs_bind.
  eapply runs_mono; [apply (edits_no_selector conf (Palettes.palettes ps) s0)|].
  - exact Hok.
  - exact Hnd.
  - exact Hrules.
  - intros r Hr. destruct (Hround r Hr) as (c & Hc & Hc' & _). eauto.
  - intros s1 r1 [-> Hs1].
    assert (Hkeep := recolored_keeps _ _ _ _ (in_space_hex conf)
                                     (in_space_accent conf) Hs1).
    destruct Hs1 as [Hf1 Hc1].
    apply runs_bind.
    eexists s1, _. split.
    { apply JsonEncoder_encode_reads. eapply Forall_impl; [exact Hok|].
      intros v Hv. eapply variant_ok_frame; [exact Hf1|exact Hv]. }
    eexists _, (ok tt). split; [reflexivity|]. simpl.
    split; [reflexivity|]. split; [|split].
    + exists (document detailed s ps).
      rewrite (frame_written _ _ Hf1). simpl. rewrite <- app_assoc. simpl.
      rewrite (document_ext detailed s0 s1).
      * reflexivity.
      * apply (frame_palettes _ _ Hf1).
      * intros r. rewrite Hc1.
        destruct (decide (r ∈ colors_of s0 (Palettes.palettes ps).*2)) as [Hr|Hr].
        -- rewrite (bool_decide_eq_true_2 _ Hr).
           destruct (Hround r Hr) as (c & Hc & _ & Hstr).
           change (color_objs s0) with (color_objs s). rewrite Hc. simpl.
           constructor. split; [apply in_space_hex|].
           split; [apply in_space_accent|exact Hstr].
        -- rewrite (bool_decide_eq_false_2 _ Hr).
           destruct (color_objs s0 !! r); constructor. repeat split.
    + apply (frame_palettes _ _ Hf1).
    + exact Hkeep.
Qed.

(** ** One colour, rule by rule *)

Lemma reworked_refl refs s : reworked refs s s.
Proof.
  split; [apply edit_frame_refl|]. split; [|reflexivity].
  intros r. destruct (color_objs s !! r); constructor. reflexivity.
Qed.

Lemma reworked_trans refs s1 s2 s3 :
  reworked refs s1 s2 -> reworked refs s2 s3 -> reworked refs s1 s3.
Proof.
  intros (Hf1 & Hh1 & Ho1) (Hf2 & Hh2 & Ho2).
  split; [eapply edit_frame_trans; eassumption|]. split.
  - intros r. specialize (Hh1 r). specialize (Hh2 r).
    destruct Hh1 as [c1 c2 H12|]; inversion Hh2; subst; constructor. congruence.
  - intros r Hr. rewrite (Ho2 r Hr). apply Ho1. exact Hr.
Qed.

Lemma reworked_more refs refs' s s' :
  (forall r, r ∈ refs -> r ∈ refs') -> reworked refs s s' -> reworked refs' s s'.
Proof.
  intros Hsub (Hf & Hh & Ho). split; [exact Hf|]. split; [exact Hh|].
  intros r Hr. apply Ho. intros Hin. apply Hr, Hsub, Hin.
Qed.

(** A store that differs from [s] in the working colour of [r] at most. *)
Lemma reworked_working r c k s s' :
  color_objs s !! r = Some c ->
  edit_objs s' = edit_objs s -> palette_objs s' = palette_objs s ->
  written s' = written s ->
  color_objs s' = <[r := Color.with_color c k]> (color_objs s) ->
  reworked [r] s s'.
Proof.
  intros Hc He Hp Hw Hc'. split; [split|split].
  - rewrite He. reflexivity.
  - exact Hp.
  - exact Hw.
  - intros x. rewrite Hc'. destruct (decide (x = r)) as [->|Hx].
    + rewrite lookup_insert_eq, Hc. constructor. reflexivity.
    + rewrite lookup_insert_ne by congruence.
      destruct (color_objs s !! x); constructor. reflexivity.
  - intros x. rewrite Hc'. destruct (decide (x = r)) as [->|Hx].
    + rewrite lookup_insert_eq, Hc. constructor. reflexivity.
    + rewrite lookup_insert_ne by congruence.
      destruct (color_objs s !! x); constructor. reflexivity.
  - intros x Hx. rewrite Hc'. apply lookup_insert_ne.
    intros ->. apply Hx. left.
Qed.

(** The loop over the rules, for one colour: it leaves the working colour
    that [edited] computes, or raises what [edited] raises. *)
Lemma rules_loop name color c refs es k s :
  rules_at s refs es ->
  color_objs s !! color = Some (Color.with_color c k) ->
  runs (for_each refs (fun edit =>
          e ← get_edit edit;
          c ← get_color color;
          if Edit.applies e name (Color.accent c)
          then Color_edit color (Edit.variable e) edit
          else mret tt)) s
       (fun s' r =>
          edit_objs s' = edit_objs s /\ palette_objs s' = palette_objs s /\
          written s' = written s /\
          (exists k', color_objs s'
                      = <[color := Color.with_color c k']> (color_objs s)) /\
          match edited es name (Color.accent c) k with
          | inl e => r = raise e
          | inr k' => r = ok tt /\
                      color_objs s'
                      = <[color := Color.with_color c k']> (color_objs s)
          end).
Proof.
  revert refs k s.
  induction es as [|e es IH]; intros refs k s Hrules Hc;
    inversion Hrules as [|x e' refs' es' Hx Hrest]; subst; simpl.
  - apply runs_ret.
    assert (Hid : color_objs s = <[color := Color.with_color c k]> (color_objs s)).
    { symmetry. apply insert_id. exact Hc. }
    repeat split; eauto.
  - apply runs_bind, runs_bind, (runs_get_edit _ e); [exact Hx|].
    apply runs_bind, (runs_get_color _ _ _ _ Hc). simpl.
    destruct (Edit.applies e name (Color.accent c)).
    + unfold Color_edit.
      apply runs_bind, (runs_get_color _ _ _ _ Hc).
      apply runs_bind, (runs_get_edit _ e); [exact Hx|].
      apply runs_bind, runs_lift. simpl.
      destruct (_Color_set k (Edit.variable e) (Edit.__call__ e)) as [err|k2];
        simpl.
      * repeat split; try reflexivity.
        exists k. symmetry. apply insert_id. exact Hc.
      * eexists _, (ok tt). split; [reflexivity|].
        set (s2 := mkStore _ _ _ _).
        assert (Hc2 : color_objs s2 !! color = Some (Color.with_color c k2)).
        { apply lookup_insert_eq. }
        eapply runs_mono; [apply (IH refs' k2 s2 Hrest Hc2)|].
        intros s3 r3 (He3 & Hp3 & Hw3 & (k' & Hk') & Hres).
        assert (Hins : forall k'',
                  <[color := Color.with_color c k'']> (color_objs s2)
                  = <[color := Color.with_color c k'']> (color_objs s)).
        { intros k''. apply insert_insert_eq. }
        split; [exact He3|]. split; [exact Hp3|]. split; [exact Hw3|].
        split; [exists k'; rewrite Hk'; apply Hins|].
        destruct (edited es name (Color.accent c) k2) as [err|k3];
          [exact Hres|].
        destruct Hres as [-> Hres]. split; [reflexivity|].
        rewrite Hres. apply Hins.
    + apply runs_ret. apply (IH refs' k s Hrest Hc).
Qed.

(** One turn of the first loop: the colour gets the working colour that
    [worked] computes, or the turn raises what [worked] raises; either way
    nothing but the working colour of this colour has changed. *)
Lemma Palette_edit_color_works conf refs es name color c s :
  rules_at s refs es ->
  color_objs s !! color = Some c ->
  runs (Palette_edit_color conf refs name color) s
       (fun s' r =>
          reworked [color] s s' /\
          edit_objs s' = edit_objs s /\
          match worked conf es name c with
          | inl e => r = raise e
          | inr k => r = ok tt /\
                     color_objs s'
                     = <[color := Color.with_color c k]> (color_objs s)
          end).
Proof.
  intros Hrules Hc. unfold Palette_edit_color, worked.
  apply runs_bind, (runs_get_color _ _ _ _ Hc).
  apply runs_bind, runs_lift.
  destruct (_Color_convert (Color.color c) (Config.color_space conf))
    as [e|k0]; simpl.
  { split; [apply reworked_refl|]. split; reflexivity. }
  apply runs_bind. eexists _, (ok tt). split; [reflexivity|].
  set (s1 := mkStore _ _ _ _).
  assert (Hc1 : color_objs s1 !! color = Some (Color.with_color c k0)).
  { apply lookup_insert_eq. }
  eapply runs_mono; [apply (rules_loop name color c refs es k0 s1 Hrules Hc1)|].
  intros s2 r2 (He2 & Hp2 & Hw2 & (k' & Hk') & Hres).
  assert (Hins : forall k'',
            <[color := Color.with_color c k'']> (color_objs s1)
            = <[color := Color.with_color c k'']> (color_objs s)).
  { intros k''. apply insert_insert_eq. }
  split; [|split; [exact He2|]].
  - apply (reworked_working color c k'); try assumption.
    rewrite Hk'. apply Hins.
  - destruct (edited es name (Color.accent c) k0) as [e|k]; [exact Hres|].
    destruct Hres as [-> Hres]. split; [reflexivity|]. rewrite Hres. apply Hins.
Qed.

Lemma rules_at_exist s refs es x :
  rules_at s refs es -> x ∈ refs -> is_Some (edit_objs s !! x).
Proof.
  intros Hrules Hx. apply list_elem_of_lookup in Hx as [i Hi].
  destruct (Forall2_lookup_l _ _ _ _ _ Hrules Hi) as (e & _ & He). eauto.
Qed.

Lemma rules_at_frame s s' refs es :
  edit_frame s s' -> rules_at s refs es -> rules_at s' refs es.
Proof.
  intros Hs' Hrules. eapply Forall2_impl; [exact Hrules|].
  intros x e Hx. simpl in Hx |- *.
  eapply lookup_weaken; [exact Hx|apply (frame_edits _ _ Hs')].
Qed.

Lemma rules_at_total s refs :
  (forall x, x ∈ refs -> is_Some (edit_objs s !! x)) ->
  exists es, rules_at s refs es.
Proof.
  induction refs as [|x refs IH]; intros Hrefs.
  - exists []. constructor.
  - destruct (Hrefs x) as [e He]; [left|].
    destruct IH as [es Hes]; [intros y Hy; apply Hrefs; right; exact Hy|].
    exists (e :: es). constructor; assumption.
Qed.

(** The first loop as a whole works on the working colours of the variant. *)
Lemma first_loop_reworks conf refs es (colors : dict ref) s :
  rules_at s refs es ->
  (forall name r, (name, r) ∈ colors -> is_Some (color_objs s !! r)) ->
  runs (for_each (dict_items colors)
                 (fun '(name, color) => Palette_edit_color conf refs name color)) s
       (fun s' _ => reworked colors.*2 s s' /\ edit_objs s' = edit_objs s).
Proof.
  intros Hes Hcolors.
  apply (runs_for_each (fun s' => reworked colors.*2 s s' /\
                                   edit_objs s' = edit_objs s));
    [split; [apply reworked_refl|reflexivity]|].
  intros [name color] s1 Hin [Hs1 He1].
  assert (Hc1 : is_Some (color_objs s1 !! color)).
  { apply (edit_frame_color s); [apply Hs1|]. eapply Hcolors. exact Hin. }
  destruct Hc1 as [c1 Hc1].
  eapply runs_mono; [apply (Palette_edit_color_works conf refs es name color c1)|].
  - eapply rules_at_frame; [apply Hs1|exact Hes].
  - exact Hc1.
  - intros s2 r2 (Hs2 & He2 & _). split; [|congruence].
    eapply reworked_trans; [exact Hs1|].
    eapply reworked_more; [|exact Hs2].
    intros r Hr. apply list_elem_of_singleton in Hr as ->.
    apply list_elem_of_fmap. exists (name, color). auto.
Qed.

(** X2. The first loop of [Palette.edit] (lines 87 to 92) works on the
    working colours alone: however it ends, every [Color] object has the
    [hex] and the accent flag it had, the colours outside the variant are
    untouched, and no [Edit] or [Palette] object and no file has changed. A
    [hex] changes in the second loop only. *)
Theorem first_loop_keeps_hex conf edits (colors : dict ref) s :
  (forall x, x ∈ edits -> is_Some (edit_objs s !! x)) ->
  (forall name r, (name, r) ∈ colors -> is_Some (color_objs s !! r)) ->
  runs (for_each (dict_items colors)
                 (fun '(name, color) => Palette_edit_color conf edits name color)) s
       (fun s' _ =>
          edit_objs s' = edit_objs s
          /\ palette_objs s' = palette_objs s
          /\ written s' = written s
          /\ (forall r c, color_objs s !! r = Some c ->
                          exists c', color_objs s' !! r = Some c'
                                     /\ Color.hex c' = Color.hex c
                                     /\ Color.accent c' = Color.accent c)
          /\ (forall r, r ∉ colors.*2 -> color_objs s' !! r = color_objs s !! r)).
Proof.
  intros Hedits Hcolors. destruct (rules_at_total s edits Hedits) as [es Hes].
  eapply runs_mono; [apply (first_loop_reworks conf edits es colors s Hes Hcolors)|].
  intros s' r [([_ Hp Hw Hacc] & Hhex & Hout) He]. simpl.
  split; [exact He|]. split; [exact Hp|]. split; [exact Hw|].
  split; [|exact Hout].
  intros x c Hx. specialize (Hhex x). specialize (Hacc x).
  rewrite Hx in Hhex, Hacc.
  inversion Hhex as [c0 c' Hh E1 E2|]. subst.
  rewrite <- E2 in Hacc. inversion Hacc. subst. eauto.
Qed.

(** ** An exception in the first loop *)

Lemma derived_rules_at s s1 inverse xs refs es :
  Forall2 (derived s s1 inverse) xs refs ->
  rules_at s xs es ->
  rules_at s1 refs ((fun e => Edit.replace_inverse_light e inverse) <$> es).
Proof.
  intros Hd. revert es. induction Hd as [|x r xs refs Hxr Hd IH];
    intros es Hes; inversion Hes as [|x' e xs' es' Hx Hrest]; subst.
  - constructor.
  - rewrite fmap_cons. constructor; [|apply IH; exact Hrest].
    destruct Hxr as (_ & e0 & Hx0 & Hr).
    assert (e0 = e) as -> by congruence. exact Hr.
Qed.

(** If the conversion or a rule raises for one colour of the list, the first
    loop raises, at this colour or before. *)
Lemma first_loop_raises conf refs es (l : dict ref) name r c e s :
  NoDup l.*2 ->
  (forall n x, (n, x) ∈ l -> is_Some (color_objs s !! x)) ->
  rules_at s refs es ->
  (name, r) ∈ l ->
  color_objs s !! r = Some c ->
  worked conf es name c = raise e ->
  runs (for_each l (fun '(name, color) => Palette_edit_color conf refs name color)) s
       (fun s' res => (exists e', res = raise e') /\ reworked l.*2 s s').
Proof.
  revert s. induction l as [|[n0 r0] l IH]; intros s Hnd Hexist Hrules Hin Hc Hw.
  { apply elem_of_nil in Hin as []. }
  rewrite fmap_cons, NoDup_cons in Hnd. destruct Hnd as [Hr0 Hnd]. simpl in Hr0.
  simpl. apply runs_bind.
  destruct (Hexist n0 r0) as [c0 Hc0]; [left|].
  eapply runs_mono;
    [apply (Palette_edit_color_works conf refs es n0 r0 c0 s Hrules Hc0)|].
  intros s1 r1 (Hs1 & He1 & Hres).
  assert (Hs1' : reworked ((n0, r0) :: l).*2 s s1).
  { eapply reworked_more; [|exact Hs1].
    intros x Hx. apply list_elem_of_singleton in Hx as ->. left. }
  apply elem_of_cons in Hin as [[= <- <-]|Hin].
  - assert (c0 = c) as -> by congruence. rewrite Hw in Hres. subst r1.
    split; [eauto|exact Hs1'].
  - assert (Hne : r <> r0).
    { intros ->. apply Hr0. apply list_elem_of_fmap. exists (name, r0). auto. }
    destruct r1 as [e1|[]]; [split; [eauto|exact Hs1']|].
    destruct Hs1 as (Hf1 & _ & Hout).
    eapply runs_mono; [apply IH|].
    + exact Hnd.
    + intros n x Hnx. apply (edit_frame_color s); [exact Hf1|].
      apply (Hexist n x). right. exact Hnx.
    + eapply rules_at_frame; [exact Hf1|exact Hrules].
    + exact Hin.
    + rewrite Hout; [exact Hc|]. intros Hx.
      apply list_elem_of_singleton in Hx. contradiction.
    + exact Hw.
    + intros s2 r2 [Hraise Hs2]. split; [exact Hraise|].
      eapply reworked_trans; [exact Hs1'|].
      eapply reworked_more; [|exact Hs2]. intros x Hx. right. exact Hx.
Qed.

(** X3. Nothing is committed when the first loop fails: if for some colour
    of the variant the conversion to the working space raises, or a rule that
    selects the colour does, then [Palette.edit] ends with an exception and
    every [Color] object of the store has the [hex] it had. *)
Theorem Palette_edit_raises_uncommitted self p conf es name r c e s :
  palette_objs s !! self = Some p ->
  NoDup (Palette.colors p).*2 ->
  (forall n x, (n, x) ∈ Palette.colors p -> is_Some (color_objs s !! x)) ->
  rules_at s (Config.edits conf) es ->
  (name, r) ∈ Palette.colors p ->
  color_objs s !! r = Some c ->
  worked conf (copies conf p es) name c = raise e ->
  runs (Palette_edit self conf) s
       (fun s' res =>
          (exists e', res = raise e')
          /\ forall x c0, color_objs s !! x = Some c0 ->
                          exists c', color_objs s' !! x = Some c'
                                     /\ Color.hex c' = Color.hex c0).
Proof.
  intros Hp Hnd Hexist Hrules Hin Hc Hw. unfold Palette_edit, Palette_edit_loops.
  apply runs_bind.
  eapply runs_mono; [apply (Palette_edit_edits_runs self p conf s Hp)|].
  { intros x Hx. eapply rules_at_exist; eassumption. }
  intros s1 r1 (refs & -> & Hs1 & Hc1 & Hrefs).
  assert (Hp1 : palette_objs s1 !! self = Some p).
  { rewrite (frame_palettes _ _ Hs1). exact Hp. }
  apply runs_bind, (runs_get_palette _ p); [exact Hp1|].
  apply runs_bind.
  eapply runs_mono;
    [apply (first_loop_raises conf refs (copies conf p es)
                              (Palette.colors p) name r c e s1)|].
  - exact Hnd.
  - intros n x Hnx. rewrite Hc1. eapply Hexist. exact Hnx.
  - eapply derived_rules_at; eassumption.
  - exact Hin.
  - rewrite Hc1. exact Hc.
  - exact Hw.
  - intros s2 r2 [[e' ->] (_ & Hhex & _)]. split; [eauto|].
    intros x c0 Hx. specialize (Hhex x). rewrite Hc1, Hx in Hhex.
    inversion Hhex. eauto.
Qed.

(** ** What [Palette.edit] makes of each colour *)

(** A loop over distinct colours, the turn of [x] changing its colour by
    [g x]. *)
Lemma for_each_rewrites {A} (key : A -> ref)
    (g : A -> Color.t _Color -> Color.t _Color) (body : A -> M unit) l s :
  NoDup (key <$> l) ->
  (forall x s', x ∈ l -> edit_frame s s' ->
     color_objs s' !! key x = color_objs s !! key x ->
     runs (body x) s'
          (fun s'' r => r = ok tt /\ edit_frame s' s'' /\
                        exists c, color_objs s' !! key x = Some c /\
                                  color_objs s'' = <[key x := g x c]> (color_objs s'))) ->
  runs (for_each l body) s
       (fun s' r =>
          r = ok tt /\ edit_frame s s' /\
          (forall x, x ∈ l -> color_objs s' !! key x = g x <$> color_objs s !! key x) /\
          (forall r, r ∉ key <$> l -> color_objs s' !! r = color_objs s !! r)).
Proof.
  intros Hnd Hbody.
  apply (runs_for_each_steps
           (fun done s' =>
              edit_frame s s' /\
              (forall x, x ∈ done ->
                         color_objs s' !! key x = g x <$> color_objs s !! key x) /\
              (forall r, r ∉ key <$> done -> color_objs s' !! r = color_objs s !! r))
           body [] l s).
  { split; [apply edit_frame_refl|]. split; [|reflexivity].
    intros x Hx. apply elem_of_nil in Hx as []. }
  intros pre x s1 [rest Hl] (Hf1 & Hin1 & Hout1). simpl in Hl. subst l.
  rewrite fmap_app, fmap_cons in Hnd.
  apply NoDup_app in Hnd as (_ & Hpre & _).
  assert (Hx : key x ∉ key <$> pre).
  { intros Hin. apply (Hpre _ Hin). left. }
  eapply runs_mono; [apply Hbody|].
  - apply elem_of_app. right. left.
  - exact Hf1.
  - apply Hout1. exact Hx.
  - intros s2 r (-> & Hf2 & c & Hc & Hc2). split; [reflexivity|].
    split; [eapply edit_frame_trans; eassumption|]. split.
    + intros y Hy. rewrite Hc2. apply elem_of_app in Hy as [Hy|Hy].
      * rewrite lookup_insert_ne; [apply Hin1; exact Hy|].
        intros Heq. apply Hx. rewrite Heq. apply list_elem_of_fmap. eauto.
      * apply list_elem_of_singleton in Hy as ->.
        rewrite lookup_insert_eq, <- (Hout1 _ Hx), Hc. reflexivity.
    + intros r0 Hr0. rewrite fmap_app, not_elem_of_app in Hr0.
      destruct Hr0 as [Hr0 Hr0']. rewrite Hc2.
      rewrite lookup_insert_ne; [apply Hout1; exact Hr0|].
      intros Heq. apply Hr0'. rewrite <- Heq. left.
Qed.

Lemma Color_update_commits self c h s :
  color_objs s !! self = Some c ->
  committed (Color.color c) = ok h ->
  runs (Color_update self) s
       (fun s' r => r = ok tt /\ edit_frame s s' /\
                    color_objs s' = <[self := Color.with_hex c h]> (color_objs s)).
Proof.
  intros Hc Hh. unfold Color_update.
  apply runs_bind, (runs_get_color _ _ _ _ Hc).
  apply runs_bind, runs_lift. unfold committed in Hh. rewrite Hh.
  eapply runs_put_color; [exact Hc|reflexivity|].
  intros s1 Hs1 Hc1 _. auto.
Qed.

(** X4. What [Palette.edit] does when nothing raises. If for every colour of
    the variant the engine converts the working colour to the space of the
    configuration, applies in the order of [conf.edits] the rules that select
    the colour (each to the result of the one before, with the flag of the
    variant), and prints the result, then [Palette.edit] ends normally and
    each colour of the variant has become this result: the new [hex], the
    accent flag it had, the new working colour. Every other colour, the
    palette objects and the files are as they were. *)
Theorem Palette_edit_customizes self p conf es s :
  palette_objs s !! self = Some p ->
  NoDup (Palette.colors p).*2 ->
  rules_at s (Config.edits conf) es ->
  (forall name r, (name, r) ∈ Palette.colors p ->
     exists c c', color_objs s !! r = Some c /\
                  customized conf (copies conf p es) name c = ok c') ->
  runs (Palette_edit self conf) s
       (fun s' res =>
          res = ok tt
          /\ (forall name r, (name, r) ∈ Palette.colors p ->
                exists c c', color_objs s !! r = Some c /\
                             customized conf (copies conf p es) name c = ok c' /\
                             color_objs s' !! r = Some c')
          /\ (forall r, r ∉ (Palette.colors p).*2 ->
                        color_objs s' !! r = color_objs s !! r)
          /\ palette_objs s' = palette_objs s
          /\ written s' = written s).
Proof.
  intros Hp Hnd Hrules Hcolors. unfold Palette_edit, Palette_edit_loops.
  apply runs_bind.
  eapply runs_mono; [apply (Palette_edit_edits_runs self p conf s Hp)|].
  { intros x Hx. eapply rules_at_exist; eassumption. }
  intros s1 r1 (refs & -> & Hs1 & Hc1 & Hrefs).
  assert (Hrules1 : rules_at s1 refs (copies conf p es)).
  { eapply derived_rules_at; eassumption. }
  assert (Hp1 : palette_objs s1 !! self = Some p).
  { rewrite (frame_palettes _ _ Hs1). exact Hp. }
  apply runs_bind, (runs_get_palette _ p); [exact Hp1|].
  set (g1 := fun (x : string * ref) (c : Color.t _Color) =>
               match worked conf (copies conf p es) x.1 c with
               | inr k => Color.with_color c k
               | inl _ => c
               end).
  set (g2 := fun (_ : ref) (c : Color.t _Color) =>
               match committed (Color.color c) with
               | inr h => Color.with_hex c h
               | inl _ => c
               end).
  apply runs_bind.
  eapply runs_mono; [apply (for_each_rewrites snd g1); [exact Hnd|]|].
  - intros [name r] s2 Hin Hs2 Hsame. simpl in Hsame |- *.
    destruct (Hcolors name r Hin) as (c & c' & Hc & Hcust).
    unfold customized in Hcust.
    destruct (worked conf (copies conf p es) name c) as [e|k] eqn:Hw;
      [discriminate|].
    eapply runs_mono;
      [apply (Palette_edit_color_works conf refs (copies conf p es) name r c s2)|].
    + eapply rules_at_frame; [exact Hs2|exact Hrules1].
    + rewrite Hsame, Hc1. exact Hc.
    + intros s3 r3 ((Hf3 & _) & _ & Hres). rewrite Hw in Hres.
      destruct Hres as [-> Hres]. split; [reflexivity|]. split; [exact Hf3|].
      exists c. split; [rewrite Hsame, Hc1; exact Hc|].
      rewrite Hres. unfold g1. simpl. rewrite Hw. reflexivity.
  - intros s2 r2 (-> & Hs2 & Hin2 & Hout2).
    assert (Hp2 : palette_objs s2 !! self = Some p).
    { rewrite (frame_palettes _ _ Hs2). exact Hp1. }
    apply runs_bind, (runs_get_palette _ p); [exact Hp2|].
    eapply runs_mono;
      [apply (for_each_rewrites id g2);
       [rewrite list_fmap_id; exact Hnd|]|].
    + intros r s3 Hin Hs3 Hsame. change (id r) with r in Hsame |- *.
      unfold dict_values in Hin.
      apply list_elem_of_fmap in Hin as ([name r'] & -> & Hin). simpl in *.
      destruct (Hcolors name r' Hin) as (c & c' & Hc & Hcust).
      unfold customized in Hcust.
      destruct (worked conf (copies conf p es) name c) as [e|k] eqn:Hw;
        [discriminate|]. simpl in Hcust.
      destruct (committed k) as [e|h] eqn:Hh; [discriminate|].
      assert (Hc3 : color_objs s3 !! r' = Some (Color.with_color c k)).
      { rewrite Hsame. pose proof (Hin2 (name, r') Hin) as H2. simpl in H2.
        rewrite H2, Hc1, Hc. simpl. unfold g1. simpl. rewrite Hw. reflexivity. }
      eapply runs_mono; [apply (Color_update_commits r' _ h s3 Hc3 Hh)|].
      intros s4 r4 (-> & Hs4 & Hc4). split; [reflexivity|]. split; [exact Hs4|].
      eexists. split; [exact Hc3|]. rewrite Hc4. unfold g2. simpl.
      rewrite Hh. reflexivity.
    + intros s3 r3 (-> & Hs3 & Hin3 & Hout3). split; [reflexivity|].
      rewrite list_fmap_id in Hout3. unfold dict_values in Hin3, Hout3.
      split; [|split; [|split]].
      * intros name r Hin. destruct (Hcolors name r Hin) as (c & c' & Hc & Hcust).
        exists c, c'. split; [exact Hc|]. split; [exact Hcust|].
        assert (Hr : r ∈ (Palette.colors p).*2).
        { apply list_elem_of_fmap. exists (name, r). auto. }
        specialize (Hin3 r Hr). change (id r) with r in Hin3.
        pose proof (Hin2 (name, r) Hin) as H2. simpl in H2.
        rewrite Hin3, H2, Hc1, Hc. simpl.
        unfold customized in Hcust. unfold g1, g2. simpl.
        destruct (worked conf (copies conf p es) name c) as [e|k];
          [discriminate|]. simpl in Hcust |- *.
        destruct (committed k) as [e|h]; [discriminate|].
        simpl in Hcust. injection Hcust as <-. reflexivity.
      * intros r Hr. rewrite (Hout3 r Hr), (Hout2 r Hr), Hc1. reflexivity.
      * rewrite (frame_palettes _ _ Hs3), (frame_palettes _ _ Hs2).
        apply (frame_palettes _ _ Hs1).
      * rewrite (frame_written _ _ Hs3), (frame_written _ _ Hs2).
        apply (frame_written _ _ Hs1).
Qed.

(** ** Rules that select no colour of a variant *)

Lemma for_each_not_applied (edits : list ref) name color c s :
  (forall x, x ∈ edits ->
     exists e, edit_objs s !! x = Some e /\
               Edit.applies e name (Color.accent c) = false) ->
  color_objs s !! color = Some c ->
  for_each edits (fun edit =>
      e ← get_edit edit;
      c ← get_color color;
      if Edit.applies e name (Color.accent c)
      then Color_edit color (Edit.variable e) edit
      else mret tt) s
  = Some (s, ok tt).
Proof.
  intros Hedits Hc. induction edits as [|x edits IH]; simpl; [reflexivity|].
  destruct (Hedits x) as (e & He & Hno); [left|].
  unfold mbind, M_bind, get_edit, get_color. rewrite He. simpl. rewrite Hc. simpl.
  rewrite Hno. apply IH. intros y Hy. apply Hedits. right. exact Hy.
Qed.

Lemma Palette_edit_color_unselected conf edits (colors : dict ref) name color s :
  unselected s edits colors -> (name, color) ∈ colors ->
  Palette_edit_color conf edits name color s
  = Palette_edit_color conf [] name color s.
Proof.
  intros Hun Hin. unfold Palette_edit_color, mbind, M_bind, get_color, lift.
  destruct (color_objs s !! color) as [c|] eqn:Hc; [simpl|reflexivity].
  destruct (_Color_convert _ _) as [e|k]; [reflexivity|]. simpl.
  apply (for_each_not_applied edits name color (Color.with_color c k)).
  - intros x Hx. destruct (Hun x Hx) as (e & He & Hno). exists e.
    split; [exact He|]. simpl. eapply Hno; eassumption.
  - simpl. apply lookup_insert_eq.
Qed.

Lemma unselected_kept conf edits (colors : dict ref) name color s s' r :
  unselected s edits colors -> (name, color) ∈ colors ->
  Palette_edit_color conf [] name color s = Some (s', r) ->
  unselected s' edits colors.
Proof.
  intros Hun Hin. unfold Palette_edit_color, mbind, M_bind, get_color, lift.
  destruct (color_objs s !! color) as [c|] eqn:Hc; [simpl|discriminate].
  destruct (_Color_convert _ _) as [e|k]; simpl; intros [= <- _]; [exact Hun|].
  intros x Hx. destruct (Hun x Hx) as (e & He & Hno). exists e.
  split; [exact He|]. simpl. intros n r0 c0 Hn Hc0.
  destruct (decide (r0 = color)) as [->|Hne].
  - rewrite lookup_insert_eq in Hc0. injection Hc0 as <-. simpl.
    eapply Hno; eassumption.
  - rewrite lookup_insert_ne in Hc0 by congruence. eapply Hno; eassumption.
Qed.

Lemma first_loop_unselected conf edits (colors l : dict ref) s :
  (forall x, x ∈ l -> x ∈ colors) ->
  unselected s edits colors ->
  for_each l (fun '(name, color) => Palette_edit_color conf edits name color) s
  = for_each l (fun '(name, color) => Palette_edit_color conf [] name color) s.
Proof.
  revert s. induction l as [|[name color] l IH]; intros s Hl Hun; simpl;
    [reflexivity|].
  assert (Hin : (name, color) ∈ colors) by (apply Hl; left).
  unfold mbind, M_bind.
  rewrite (Palette_edit_color_unselected _ _ _ _ _ _ Hun Hin).
  destruct (Palette_edit_color conf [] name color s) as [[s' [e|[]]]|] eqn:Hs';
    try reflexivity.
  apply IH; [intros x Hx; apply Hl; right; exact Hx|].
  eapply unselected_kept; eassumption.
Qed.

(** X5. Rules that select no colour of a variant are not applied to it: if
    no rule of the configuration selects, by name or by accent, a colour of
    the variant, [Palette.edit] does to the variant what it does with an empty
    list of rules, whether it ends normally or raises. *)
Theorem Palette_edit_unselected self p conf s :
  palette_objs s !! self = Some p ->
  unselected s (Config.edits conf) (Palette.colors p) ->
  same_outcome (Palette_edit self conf s)
               (Palette_edit self (without_rules conf) s).
Proof.
  intros Hp Hun.
  destruct (Palette_edit_edits_runs self p conf s Hp)
    as (s1 & r & Hedits & refs & -> & Hs1 & Hc1 & Hrefs).
  { intros x Hx. destruct (Hun x Hx) as (e & He & _). eauto. }
  assert (Hun1 : unselected s1 refs (Palette.colors p)).
  { intros x Hx. apply list_elem_of_lookup in Hx as [i Hi].
    destruct (Forall2_lookup_r _ _ _ _ _ Hrefs Hi) as (y & Hy & Hd).
    destruct Hd as (_ & e & He & Hcopy).
    destruct (Hun y) as (e' & He' & Hno); [eapply list_elem_of_lookup_2; exact Hy|].
    assert (e' = e) as -> by congruence.
    eexists. split; [exact Hcopy|].
    intros name r0 c Hin Hc. rewrite Hc1 in Hc. exact (Hno name r0 c Hin Hc). }
  assert (Hnone : Palette_edit_edits self (without_rules conf) s
                  = Some (s, ok [])).
  { unfold Palette_edit_edits, mbind, M_bind, get_palette. rewrite Hp.
    reflexivity. }
  assert (Hget : get_palette self s1 = Some (s1, ok p)).
  { unfold get_palette. rewrite (frame_palettes _ _ Hs1), Hp. reflexivity. }
  unfold Palette_edit.
  rewrite (bind_ok _ _ _ _ _ Hedits), (bind_ok _ _ _ _ _ Hnone).
  replace (Palette_edit_loops self conf refs s1)
    with (Palette_edit_loops self conf [] s1).
  - apply (blind_Palette_edit_loops self conf).
    split; [exact Hc1|].
    split; [apply (frame_palettes _ _ Hs1)|apply (frame_written _ _ Hs1)].
  - unfold Palette_edit_loops. rewrite !(bind_ok _ _ _ _ _ Hget).
    apply bind_same. symmetry.
    apply (first_loop_unselected conf refs (Palette.colors p)); auto.
Qed.

(** ** Dicts built from items *)

Lemma dict_setitem_keys {V} (d : dict V) k v x :
  x ∈ (dict_setitem d k v).*1 <-> x = k \/ x ∈ d.*1.
Proof.
  induction d as [|[k' v'] d IH]; simpl.
  - rewrite list_elem_of_singleton, elem_of_nil. tauto.
  - destruct (decide (k' = k)) as [->|Hne].
    + rewrite bool_decide_eq_true_2 by reflexivity. simpl.
      rewrite !elem_of_cons. tauto.
    + rewrite bool_decide_eq_false_2 by exact Hne. simpl.
      rewrite !elem_of_cons, IH. tauto.
Qed.

Lemma dict_setitem_NoDup_keys {V} (d : dict V) k v :
  NoDup d.*1 -> NoDup (dict_setitem d k v).*1.
Proof.
  induction d as [|[k' v'] d IH]; simpl; intros Hnd.
  - apply NoDup_singleton.
  - apply NoDup_cons in Hnd as [Hk' Hnd]. simpl in Hk'.
    destruct (decide (k' = k)) as [->|Hne].
    + rewrite bool_decide_eq_true_2 by reflexivity. simpl.
      apply NoDup_cons. auto.
    + rewrite bool_decide_eq_false_2 by exact Hne. simpl.
      apply NoDup_cons. split; [|apply IH; exact Hnd].
      rewrite dict_setitem_keys. intros [->|Hin]; [congruence|auto].
Qed.

Lemma dict_setitem_values {V} (d : dict V) k v x :
  x ∈ (dict_setitem d k v).*2 -> x = v \/ x ∈ d.*2.
Proof.
  induction d as [|[k' v'] d IH]; simpl.
  - rewrite list_elem_of_singleton. auto.
  - destruct (bool_decide (k' = k)); simpl; rewrite !elem_of_cons.
    + tauto.
    + intros [->|Hin]; [auto|]. destruct (IH Hin); auto.
Qed.

Lemma dict_setitem_NoDup_values {V} (d : dict V) k v :
  NoDup d.*2 -> v ∉ d.*2 -> NoDup (dict_setitem d k v).*2.
Proof.
  induction d as [|[k' v'] d IH]; simpl; intros Hnd Hv.
  - apply NoDup_singleton.
  - apply NoDup_cons in Hnd as [Hv' Hnd]. simpl in Hv'.
    apply not_elem_of_cons in Hv as [Hne Hv].
    destruct (bool_decide (k' = k)); simpl; apply NoDup_cons.
    + auto.
    + split; [|apply IH; assumption].
      intros Hin. apply dict_setitem_values in Hin as [->|Hin]; [congruence|auto].
Qed.

Lemma dict_fold_NoDup {V} (d items : list (string * V)) :
  NoDup d.*1 -> NoDup (d.*2 ++ items.*2) ->
  let d' := foldl (fun d kv => dict_setitem d kv.1 kv.2) d items in
  NoDup d'.*1 /\ NoDup d'.*2 /\ forall x, x ∈ d'.*2 -> x ∈ d.*2 ++ items.*2.
Proof.
  revert d. induction items as [|[k v] items IH]; intros d Hk Hv; simpl.
  - rewrite app_nil_r in *. auto.
  - simpl in Hv.
    assert (Hv1 : NoDup d.*2 /\ (v ∉ d.*2) /\ NoDup items.*2 /\ (v ∉ items.*2)
                  /\ forall x, x ∈ d.*2 -> x ∉ items.*2).
    { apply NoDup_app in Hv as (Hd & Hdis & Hrest).
      apply NoDup_cons in Hrest as [Hvi Hrest].
      repeat split; try assumption.
      - intros Hin. apply (Hdis v Hin). left.
      - intros x Hx Hxi. apply (Hdis x Hx). right. exact Hxi. }
    destruct Hv1 as (Hd & Hvd & Hi & Hvi & Hdis).
    destruct (IH (dict_setitem d k v)) as (H1 & H2 & H3).
    + apply dict_setitem_NoDup_keys. exact Hk.
    + apply NoDup_app. split; [apply dict_setitem_NoDup_values; assumption|].
      split; [|exact Hi].
      intros x Hx. apply dict_setitem_values in Hx as [->|Hx]; auto.
    + split; [exact H1|]. split; [exact H2|].
      intros x Hx. specialize (H3 x Hx).
      rewrite elem_of_app in H3. rewrite elem_of_app, elem_of_cons.
      destruct H3 as [H3|H3]; [|auto].
      apply dict_setitem_values in H3 as [->|H3]; auto.
Qed.

(** A dict built from items has one item per key; if the values of the items
    are distinct, so are the values of the dict, which are among them. *)
Lemma dict_of_items_wf {V} (items : list (string * V)) :
  NoDup items.*2 ->
  NoDup (dict_of_items items).*1 /\ NoDup (dict_of_items items).*2 /\
  forall x, x ∈ (dict_of_items items).*2 -> x ∈ items.*2.
Proof.
  intros Hnd. apply (dict_fold_NoDup [] items); [constructor|exact Hnd].
Qed.

(** ** Objects that are created and never touched *)

Lemma grows_refl s : grows s s.
Proof. repeat split; reflexivity. Qed.

Lemma grows_trans s1 s2 s3 : grows s1 s2 -> grows s2 s3 -> grows s1 s3.
Proof.
  intros (He1 & Hw1 & Hc1 & Hp1) (He2 & Hw2 & Hc2 & Hp2).
  repeat split; try congruence; etrans; eassumption.
Qed.

Lemma runs_required {A} name members (dec : json -> M A) s
    (Q : store -> result A -> Prop) :
  (forall v, member name members = Some v -> runs (dec v) s Q) ->
  (member name members = None -> forall e, Q s (raise e)) ->
  runs (required name members dec) s Q.
Proof.
  intros Hsome Hnone. unfold required.
  destruct (member name members) as [v|]; [apply Hsome; reflexivity|].
  apply runs_lift. apply Hnone. reflexivity.
Qed.


Lemma planted_one s r c e p w :
  color_objs s !! r = None ->
  constructed c ->
  planted s (mkStore e (<[r := c]> (color_objs s)) p w) [r].
Proof.
  intros Hr Hc. split; [apply NoDup_singleton|].
  intros x Hx. apply list_elem_of_singleton in Hx as ->.
  split; [exact Hr|]. exists c. simpl. rewrite lookup_insert_eq. auto.
Qed.

(** [__post_init__] as the decoder runs it. *)
Lemma in_post_init_runs r c s :
  color_objs s !! r = Some c ->
  in_post_init (Color___post_init__ r) s
  = match rbind (_Color_new (Color.hex c)) (fun k => _Color_convert k "okhsl") with
    | inl e => Some (s, inl (as_validation e))
    | inr k => Some (mkStore (edit_objs s) (<[r := Color.with_color c k]> (color_objs s))
                             (palette_objs s) (written s), ok tt)
    end.
Proof.
  intros Hc.
  unfold in_post_init, Color___post_init__, mbind, M_bind, get_color, lift, put_color.
  rewrite Hc. simpl. destruct (rbind _ _) as [[]|]; reflexivity.
Qed.

(** Decoding a colour creates one [Color] object at most, and on success the
    object is new and constructed from its [hex]. *)
Lemma decode_Color_runs j s :
  runs (decode_Color j) s
       (fun s' r => grows s s' /\ forall x, r = ok x -> planted s s' [x]).
Proof.
  assert (Hfail : forall e : exn,
             grows s s /\ forall x, @inl exn ref e = ok x -> planted s s [x]).
  { intros e. split; [apply grows_refl|discriminate]. }
  destruct j; try (apply runs_lift, Hfail). unfold decode_Color.
  apply runs_bind, runs_required; [|intros _ e; apply Hfail].
  intros hv _. apply runs_lift. destruct (decode_str hv) as [e|hex]; [apply Hfail|].
  apply runs_bind, runs_required; [|intros _ e; apply Hfail].
  intros av _. apply runs_lift. destruct (decode_bool av) as [e|accent]; [apply Hfail|].
  destruct (member "color" members); [apply runs_lift, Hfail|].
  set (r := fresh (dom (color_objs s))).
  assert (Hr : color_objs s !! r = None) by apply not_elem_of_dom, is_fresh.
  set (c := Color.mk hex accent _DEFAULT_COLOR).
  set (s1 := mkStore (edit_objs s) (<[r := c]> (color_objs s))
                     (palette_objs s) (written s)).
  assert (Hg : grows s s1).
  { repeat split; simpl; try reflexivity. apply insert_subseteq. exact Hr. }
  assert (Hnew : new_color c s = Some (s1, ok r)) by reflexivity.
  assert (Hc : color_objs s1 !! r = Some c) by apply lookup_insert_eq.
  unfold runs. rewrite (bind_ok _ _ _ _ _ Hnew).
  unfold mbind, M_bind. rewrite (in_post_init_runs r c s1 Hc).
  destruct (rbind _ _) as [e|k] eqn:Hk.
  - eexists _, _. split; [reflexivity|]. split; [exact Hg|discriminate].
  - eexists _, _. split; [reflexivity|]. simpl. rewrite insert_insert_eq. split.
    + repeat split; simpl; try reflexivity. apply insert_subseteq. exact Hr.
    + intros x [= <-]. apply planted_one; [exact Hr|exact Hk].
Qed.


Lemma planted_nil s : planted s s [].
Proof. split; [constructor|]. intros r Hr. apply elem_of_nil in Hr as []. Qed.

Lemma planted_app s s1 s2 l1 l2 :
  grows s s1 -> grows s1 s2 ->
  planted s s1 l1 -> planted s1 s2 l2 -> planted s s2 (l1 ++ l2).
Proof.
  intros (_ & _ & Hc1 & _) (_ & _ & Hc2 & _) [Hnd1 Hl1] [Hnd2 Hl2]. split.
  - apply NoDup_app. split; [exact Hnd1|]. split; [|exact Hnd2].
    intros r Hr1 Hr2. destruct (Hl1 r Hr1) as (_ & c & Hc & _).
    destruct (Hl2 r Hr2) as (Hnone & _). congruence.
  - intros r Hr. apply elem_of_app in Hr as [Hr|Hr].
    + destruct (Hl1 r Hr) as (Hnone & c & Hc & Hk). split; [exact Hnone|].
      exists c. split; [|exact Hk]. eapply lookup_weaken; eassumption.
    + destruct (Hl2 r Hr) as (Hnone & c & Hc & Hk). split; [|eauto].
      eapply lookup_weaken_None; eassumption.
Qed.

Lemma planted_sub s s' l l' :
  NoDup l' -> (forall r, r ∈ l' -> r ∈ l) -> planted s s' l -> planted s s' l'.
Proof. intros Hnd Hsub [_ Hl]. split; [exact Hnd|]. auto. Qed.

(** The colours of a mapping are decoded one after the other, each one into
    an object of its own. *)
Lemma decode_items_runs (members : list (string * json)) s :
  runs (map_M (fun '(k, v) => c ← decode_Color v; mret (k, c)) members) s
       (fun s' r => grows s s' /\
                    forall items : list (string * ref),
                      r = ok items -> planted s s' items.*2).
Proof.
  revert s. induction members as [|[k v] members IH]; intros s; simpl.
  - apply runs_ret. split; [apply grows_refl|].
    intros items [= <-]. apply planted_nil.
  - apply runs_bind, runs_bind.
    eapply runs_mono; [apply decode_Color_runs|].
    intros s1 [e|x] [Hg1 Hx]; [split; [exact Hg1|discriminate]|].
    apply runs_ret, runs_bind.
    eapply runs_mono; [apply IH|].
    intros s2 [e|items] [Hg2 Hitems].
    + split; [eapply grows_trans; eassumption|discriminate].
    + apply runs_ret. split; [eapply grows_trans; eassumption|].
      intros items' [= <-]. simpl.
      apply (planted_app s s1 s2 [x] items.*2); auto.
Qed.

Lemma decode_colors_runs j s :
  runs (decode_colors j) s
       (fun s' r => grows s s' /\
                    forall d : dict ref,
                      r = ok d -> NoDup d.*1 /\ planted s s' d.*2).
Proof.
  destruct j; try (apply runs_lift; split; [apply grows_refl|discriminate]).
  unfold decode_colors. apply runs_bind.
  eapply runs_mono; [apply decode_items_runs|].
  intros s1 [e|items] [Hg Hitems]; [split; [exact Hg|discriminate]|].
  apply runs_ret. split; [exact Hg|]. intros d [= <-].
  specialize (Hitems items eq_refl).
  destruct (dict_of_items_wf items (proj1 Hitems)) as (Hk & Hv & Hsub).
  split; [exact Hk|]. eapply planted_sub; eassumption.
Qed.


Lemma colors_of_grows s s' vs :
  palette_objs s ⊆ palette_objs s' ->
  (forall v, v ∈ vs -> is_Some (palette_objs s !! v)) ->
  colors_of s' vs = colors_of s vs.
Proof.
  intros Hsub. induction vs as [|v vs IH]; intros Hvs; [reflexivity|]. simpl.
  rewrite IH by (intros x Hx; apply Hvs; right; exact Hx).
  destruct (Hvs v) as [p Hp]; [left|]. unfold variant_colors.
  rewrite Hp, (lookup_weaken _ _ _ _ Hp Hsub). reflexivity.
Qed.

Lemma sown_app s s1 s2 vs1 vs2 :
  grows s s1 -> grows s1 s2 ->
  sown s s1 vs1 -> sown s1 s2 vs2 -> sown s s2 (vs1 ++ vs2).
Proof.
  intros Hg1 Hg2 (Hnd1 & Hv1 & Hc1) (Hnd2 & Hv2 & Hc2).
  pose proof Hg1 as (_ & _ & _ & Hp1). pose proof Hg2 as (_ & _ & _ & Hp2).
  split; [|split].
  - apply NoDup_app. split; [exact Hnd1|]. split; [|exact Hnd2].
    intros v Hin1 Hin2. destruct (Hv1 v Hin1) as (_ & p & Hp & _).
    destruct (Hv2 v Hin2) as (Hnone & _). congruence.
  - intros v Hv. apply elem_of_app in Hv as [Hv|Hv].
    + destruct (Hv1 v Hv) as (Hnone & p & Hp & Hk). split; [exact Hnone|].
      exists p. split; [|exact Hk]. eapply lookup_weaken; eassumption.
    + destruct (Hv2 v Hv) as (Hnone & p & Hp & Hk). split; [|eauto].
      eapply lookup_weaken_None; eassumption.
  - rewrite colors_of_app.
    rewrite (colors_of_grows s1 s2 vs1 Hp2).
    + apply (planted_app s s1 s2); assumption.
    + intros v Hv. destruct (Hv1 v Hv) as (_ & p & Hp & _). eauto.
Qed.

(** Decoding a variant creates its colours and then the [Palette] object. *)
Lemma decode_Palette_runs j s :
  runs (decode_Palette j) s
       (fun s' r => grows s s' /\ forall v, r = ok v -> sown s s' [v]).
Proof.
  assert (Hfail : forall e : exn,
             grows s s /\ forall v, @inl exn ref e = ok v -> sown s s [v]).
  { intros e. split; [apply grows_refl|discriminate]. }
  destruct j; try (apply runs_lift, Hfail). unfold decode_Palette.
  apply runs_bind, runs_required; [|intros _ e; apply Hfail].
  intros nv _. apply runs_lift. destruct (decode_str nv) as [e|name]; [apply Hfail|].
  apply runs_bind, runs_required; [|intros _ e; apply Hfail].
  intros dv _. apply runs_lift. destruct (decode_bool dv) as [e|dark]; [apply Hfail|].
  apply runs_bind, runs_required; [|intros _ e; apply Hfail].
  intros cv _. eapply runs_mono; [apply decode_colors_runs|].
  intros s1 [e|colors] [Hg Hcolors]; [split; [exact Hg|discriminate]|].
  destruct (Hcolors colors eq_refl) as [Hk Hpl].
  set (v := fresh (dom (palette_objs s1))).
  assert (Hv : palette_objs s1 !! v = None) by apply not_elem_of_dom, is_fresh.
  eexists _, _. split; [reflexivity|]. fold v.
  pose proof Hg as (He & Hw & Hc & Hp).
  split.
  - repeat split; simpl; try assumption.
    etrans; [exact Hp|]. apply insert_subseteq. exact Hv.
  - intros x [= <-]. split; [apply NoDup_singleton|]. split.
    + intros x Hx. apply list_elem_of_singleton in Hx as ->. split.
      * eapply lookup_weaken_None; eassumption.
      * eexists. simpl. rewrite lookup_insert_eq. split; [reflexivity|exact Hk].
    + simpl. unfold variant_colors. simpl. rewrite lookup_insert_eq. simpl.
      rewrite app_nil_r. destruct Hpl as [Hnd Hl]. split; [exact Hnd|].
      intros r Hr. exact (Hl r Hr).
Qed.


Lemma sown_nil s : sown s s [].
Proof.
  split; [constructor|]. split; [|apply planted_nil].
  intros v Hv. apply elem_of_nil in Hv as [].
Qed.

(** One more slot of a palette set: a variant decoded after the variants
    [vs]. *)
Lemma decode_slot_runs name members vs s0 s
    (Q : store -> result ref -> Prop) :
  grows s0 s -> sown s0 s vs ->
  (forall s' e, grows s0 s' -> Q s' (raise e)) ->
  (forall s' v, grows s0 s' -> sown s0 s' (vs ++ [v]) -> Q s' (ok v)) ->
  runs (required name members decode_Palette) s Q.
Proof.
  intros Hg Hvs Hraise Hok. apply runs_required; [|intros _ e; apply Hraise, Hg].
  intros j _. eapply runs_mono; [apply decode_Palette_runs|].
  intros s' [e|v] [Hg' Hv].
  - apply Hraise. eapply grows_trans; eassumption.
  - apply Hok; [eapply grows_trans; eassumption|].
    eapply sown_app; eauto.
Qed.

(** Decoding a palette set: however it ends, objects were created at most;
    when it succeeds, the four variants and their colours are new objects,
    no two of them the same. *)
Lemma decode_Palettes_runs j s :
  runs (decode_Palettes j) s
       (fun s' r => grows s s' /\
                    forall ps, r = ok ps -> sown s s' (variants ps)).
Proof.
  assert (Hfail : forall s' (e : exn),
             grows s s' ->
             grows s s' /\
             forall ps, @inl exn (Palettes.t ref) e = ok ps ->
                        sown s s' (variants ps)).
  { intros s' e Hg. split; [exact Hg|discriminate]. }
  destruct j; try (apply runs_lift, Hfail, grows_refl). unfold decode_Palettes.
  apply runs_bind, runs_required; [|intros _ e; apply Hfail, grows_refl].
  intros vv _. apply runs_lift.
  destruct (decode_str vv) as [e|version]; [apply Hfail, grows_refl|].
  apply runs_bind.
  apply (decode_slot_runs _ _ [] s); [apply grows_refl|apply sown_nil|apply Hfail|].
  intros s1 latte Hg1 Hs1. apply runs_bind.
  apply (decode_slot_runs _ _ _ s _ _ Hg1 Hs1); [apply Hfail|].
  intros s2 frappe Hg2 Hs2. apply runs_bind.
  apply (decode_slot_runs _ _ _ s _ _ Hg2 Hs2); [apply Hfail|].
  intros s3 macchiato Hg3 Hs3. apply runs_bind.
  apply (decode_slot_runs _ _ _ s _ _ Hg3 Hs3); [apply Hfail|].
  intros s4 mocha Hg4 Hs4. apply runs_ret.
  split; [exact Hg4|]. intros ps [= <-]. exact Hs4.
Qed.

(** The tree that [sown] describes is well formed. *)
Lemma sown_variant_ok s s' vs v : sown s s' vs -> v ∈ vs -> variant_ok s' v.
Proof.
  intros (_ & Hvs & _ & Hc) Hv. destruct (Hvs v Hv) as (_ & p & Hp & Hk).
  exists p. split; [exact Hp|]. split; [exact Hk|].
  intros k r Hin. destruct (Hc r) as (_ & c & Hr & _); [|eauto].
  clear Hvs Hk. induction vs as [|x vs IH]; [apply elem_of_nil in Hv as []|].
  simpl. apply elem_of_app. apply elem_of_cons in Hv as [<-|Hv].
  - left. unfold variant_colors. rewrite Hp.
    apply list_elem_of_fmap. exists (k, r). auto.
  - right. apply IH; [|exact Hv].
    intros y Hy. apply Hc. simpl. apply elem_of_app. right. exact Hy.
Qed.


(** ** What [read_palettes] builds *)

(** X8. [read_palettes] creates objects and does nothing else: whether the
    document decodes or not, every [Color] and [Palette] object that was
    there is as it was, and so are the [Edit] objects and the files. *)
Theorem read_palettes_creates input_ s :
  runs (read_palettes input_) s (fun s' _ => grows s s').
Proof.
  eapply runs_mono; [apply decode_Palettes_runs|]. intros s' r [Hg _]. exact Hg.
Qed.

(** X9. The tree of a decoded document. [read_palettes] ends, and when it
    returns a palette set, its four variants are four different [Palette]
    objects, all new; each has one colour per name; and the colours of the
    four variants are [Color] objects that exist, all new and no two the
    same: no colour is shared between two names or two variants. *)
Theorem read_palettes_tree input_ s :
  runs (read_palettes input_) s
       (fun s' r =>
          forall ps, r = ok ps ->
            Forall (variant_ok s') (variants ps)
            /\ NoDup (variants ps)
            /\ NoDup (colors_of s' (variants ps))
            /\ (forall v, v ∈ variants ps -> palette_objs s !! v = None)
            /\ (forall x, x ∈ colors_of s' (variants ps) ->
                          color_objs s !! x = None)).
Proof.
  eapply runs_mono; [apply decode_Palettes_runs|].
  intros s' r [_ Hps] ps ->. specialize (Hps ps eq_refl).
  split; [apply Forall_forall; intros v Hv; eapply sown_variant_ok; eassumption|].
  destruct Hps as (Hnd & Hvs & Hndc & Hcs).
  split; [exact Hnd|]. split; [exact Hndc|]. split.
  - intros v Hv. apply (Hvs v Hv).
  - intros x Hx. apply (Hcs x Hx).
Qed.

(** X10. The working colour of a decoded colour. When [read_palettes] returns
    a palette set, every colour of its variants has the working colour that
    [__post_init__] derives from the [hex] of the colour,
    [_Color(hex).convert('okhsl')]: the default of the field is never left
    in a decoded colour. *)
Theorem read_palettes_constructed input_ s :
  runs (read_palettes input_) s
       (fun s' r =>
          forall ps, r = ok ps ->
            forall x, x ∈ colors_of s' (variants ps) ->
                      exists c, color_objs s' !! x = Some c /\ constructed c).
Proof.
  eapply runs_mono; [apply decode_Palettes_runs|].
  intros s' r [_ Hps] ps -> x Hx.
  destruct (Hps ps eq_refl) as (_ & _ & _ & Hcs). apply (Hcs x Hx).
Qed.

(** ** What [Palette.edit] leaves alone *)

(** [Color.update] changes the [hex] of its colour and nothing else. *)
Lemma Color_update_local self s :
  is_Some (color_objs s !! self) ->
  runs (Color_update self) s
       (fun s' _ => edit_frame s s' /\
                    forall r, r <> self -> color_objs s' !! r = color_objs s !! r).
Proof.
  intros [c Hc]. unfold Color_update.
  apply runs_bind, (runs_get_color _ c); [exact Hc|].
  apply runs_bind, runs_lift.
  destruct (rbind _ _) as [e|h]; [split; [apply edit_frame_refl|reflexivity]|].
  apply (runs_put_color _ c); [exact Hc|reflexivity|].
  intros s' Hs' Hc' _. split; [exact Hs'|].
  intros r Hr. rewrite Hc'. apply lookup_insert_ne. congruence.
Qed.

(** X6. [Palette.edit] works on the colours of its own variant: however it
    ends, normally or with an exception of either loop, every [Color] object
    that is not a colour of the variant is as it was, and so are the
    [Palette] objects and the files. *)
Theorem Palette_edit_local self p conf s :
  palette_objs s !! self = Some p ->
  (forall name r, (name, r) ∈ Palette.colors p -> is_Some (color_objs s !! r)) ->
  rules_ok s conf ->
  runs (Palette_edit self conf) s
       (fun s' _ =>
          palette_objs s' = palette_objs s
          /\ written s' = written s
          /\ forall r, r ∉ (Palette.colors p).*2 ->
                       color_objs s' !! r = color_objs s !! r).
Proof.
  intros Hp Hcolors Hrules. unfold Palette_edit, Palette_edit_loops.
  destruct (rules_at_total s (Config.edits conf) Hrules) as [es Hes].
  apply runs_bind.
  eapply runs_mono; [apply (Palette_edit_edits_runs self p conf s Hp Hrules)|].
  intros s1 r1 (refs & -> & Hs1 & Hc1 & Hrefs).
  assert (Hp1 : palette_objs s1 !! self = Some p).
  { rewrite (frame_palettes _ _ Hs1). exact Hp. }
  apply runs_bind, (runs_get_palette _ p); [exact Hp1|].
  apply runs_bind.
  eapply runs_mono;
    [apply (first_loop_reworks conf refs (copies conf p es) (Palette.colors p) s1)|].
  - eapply derived_rules_at; eassumption.
  - intros name r Hin. rewrite Hc1. eapply Hcolors. exact Hin.
  - intros s2 r2 [(Hf2 & _ & Hout2) _].
    assert (Hdone : palette_objs s2 = palette_objs s /\ written s2 = written s /\
                    forall r, r ∉ (Palette.colors p).*2 ->
                              color_objs s2 !! r = color_objs s !! r).
    { split; [rewrite (frame_palettes _ _ Hf2); apply (frame_palettes _ _ Hs1)|].
      split; [rewrite (frame_written _ _ Hf2); apply (frame_written _ _ Hs1)|].
      intros r Hr. rewrite (Hout2 r Hr), Hc1. reflexivity. }
    destruct r2 as [e|[]]; [exact Hdone|].
    destruct Hdone as (Hp2 & Hw2 & Hout).
    apply runs_bind, (runs_get_palette _ p); [rewrite Hp2; exact Hp|].
    eapply runs_mono;
      [apply (runs_for_each
                (fun s' => edit_frame s2 s' /\
                           forall r, r ∉ (Palette.colors p).*2 ->
                                     color_objs s' !! r = color_objs s2 !! r));
       [split; [apply edit_frame_refl|reflexivity]|]|].
    + intros color s3 Hin [Hf3 Hout3].
      eapply runs_mono; [apply (Color_update_local color s3)|].
      * apply (edit_frame_color s2); [exact Hf3|].
        apply (edit_frame_color s1); [exact Hf2|]. rewrite Hc1.
        apply list_elem_of_fmap in Hin as ([name color'] & -> & Hin). eauto.
      * intros s4 r4 [Hf4 Hout4]. split; [eapply edit_frame_trans; eassumption|].
        intros r Hr. rewrite Hout4; [apply Hout3, Hr|].
        intros ->. apply Hr, Hin.
    + intros s3 r3 [Hf3 Hout3].
      split; [rewrite (frame_palettes _ _ Hf3); exact Hp2|].
      split; [rewrite (frame_written _ _ Hf3); exact Hw2|].
      intros r Hr. rewrite (Hout3 r Hr). apply Hout, Hr.
Qed.

(** X7. [Color.update] twice is [Color.update] once: the second call finds
    the working colour that the first one printed and derives the same
    [hex]; if the first call raises, the second is not reached. *)
Theorem Color_update_idempotent self s :
  (Color_update self ;; Color_update self) s = Color_update self s.
Proof.
  unfold Color_update, mbind, M_bind, get_color, lift, put_color.
  destruct (color_objs s !! self) as [c|] eqn:Hc; simpl; [|reflexivity].
  destruct (rbind (_Color_convert (Color.color c) "srgb") _Color_to_string_hex)
    as [e|h] eqn:Hh; simpl.
  - reflexivity.
  - rewrite lookup_insert_eq. simpl. rewrite Hh. simpl.
    rewrite insert_insert_eq. reflexivity.
Qed.


(** ** Documents that do not decode *)

Lemma raises_map_M {A B} (f : A -> M B) l x s :
  x ∈ l -> (forall y s', ends (f y) s') -> (forall s', raises (f x) s') ->
  raises (map_M f l) s.
Proof.
  intros Hx Hends Hraises. revert s.
  induction l as [|y l IH]; intros s; [apply elem_of_nil in Hx as []|]. simpl.
  apply elem_of_cons in Hx as [<-|Hx]; [apply raises_bind, Hraises|].
  apply raises_later; [apply Hends|]. intros b s1.
  apply raises_bind, IH, Hx.
Qed.

Lemma ends_decode_item (kv : string * json) s :
  ends ((fun '(k, v) => c ← decode_Color v; mret (k, c)) kv) s.
Proof.
  destruct kv as [k v].
  apply ends_bind; [apply ends_decode_Color|]. intros; apply ends_ret.
Qed.

Lemma decode_Color_incomplete fields field s :
  field ∈ ["hex"; "accent"] -> member field fields = None ->
  raises (decode_Color (JObj fields)) s.
Proof.
  intros Hfield Hnone. unfold decode_Color.
  apply elem_of_cons in Hfield as [->|Hfield];
    [apply raises_bind, raises_required, Hnone|].
  apply raises_later; [apply ends_required; intros; apply ends_lift|].
  intros hex s1.
  apply elem_of_cons in Hfield as [->|Hfield];
    [apply raises_bind, raises_required, Hnone|].
  apply elem_of_nil in Hfield as [].
Qed.

Lemma decode_Palette_incomplete fields field s :
  field ∈ ["name"; "dark"; "colors"] -> member field fields = None ->
  raises (decode_Palette (JObj fields)) s.
Proof.
  intros Hfield Hnone. unfold decode_Palette.
  apply elem_of_cons in Hfield as [->|Hfield];
    [apply raises_bind, raises_required, Hnone|].
  apply raises_later; [apply ends_required; intros; apply ends_lift|].
  intros name s1.
  apply elem_of_cons in Hfield as [->|Hfield];
    [apply raises_bind, raises_required, Hnone|].
  apply raises_later; [apply ends_required; intros; apply ends_lift|].
  intros dark s2.
  apply elem_of_cons in Hfield as [->|Hfield];
    [apply raises_bind, raises_required, Hnone|].
  apply elem_of_nil in Hfield as [].
Qed.

Lemma decode_Palette_incomplete_color fields colors name cfields field s :
  member "colors" fields = Some (JObj colors) ->
  (name, JObj cfields) ∈ colors ->
  field ∈ ["hex"; "accent"] -> member field cfields = None ->
  raises (decode_Palette (JObj fields)) s.
Proof.
  intros Hc Hin Hfield Hnone. unfold decode_Palette.
  apply raises_later; [apply ends_required; intros; apply ends_lift|].
  intros n s1.
  apply raises_later; [apply ends_required; intros; apply ends_lift|].
  intros d s2. apply raises_bind.
  unfold required. rewrite Hc. unfold decode_colors. apply raises_bind.
  apply (raises_map_M _ _ (name, JObj cfields)); [exact Hin| |].
  - intros kv s3. apply ends_decode_item.
  - intros s3. apply raises_bind.
    eapply decode_Color_incomplete; eassumption.
Qed.

(** A slot that does not decode: the palette set does not decode. *)
Lemma decode_Palettes_slot members slot j s :
  slot ∈ ["latte"; "frappe"; "macchiato"; "mocha"] ->
  member slot members = Some j ->
  (forall s', raises (decode_Palette j) s') ->
  raises (read_palettes (JObj members)) s.
Proof.
  intros Hslot Hj Hraises. unfold read_palettes, decode_Palettes.
  assert (Hhere : forall s', raises (required slot members decode_Palette) s').
  { intros s'. unfold required. rewrite Hj. apply Hraises. }
  apply raises_later; [apply ends_required; intros; apply ends_lift|].
  intros version s1.
  apply elem_of_cons in Hslot as [->|Hslot]; [apply raises_bind, Hhere|].
  apply raises_later; [apply ends_required; intros; apply ends_decode_Palette|].
  intros latte s2.
  apply elem_of_cons in Hslot as [->|Hslot]; [apply raises_bind, Hhere|].
  apply raises_later; [apply ends_required; intros; apply ends_decode_Palette|].
  intros frappe s3.
  apply elem_of_cons in Hslot as [->|Hslot]; [apply raises_bind, Hhere|].
  apply raises_later; [apply ends_required; intros; apply ends_decode_Palette|].
  intros macchiato s4.
  apply elem_of_cons in Hslot as [->|Hslot]; [apply raises_bind, Hhere|].
  apply elem_of_nil in Hslot as [].
Qed.

(** X11. Every field of a variant and of a colour is required: a document in
    which a variant has no [name], [dark] or [colors], or in which a colour
    of a variant has no [hex] or [accent], does not decode: [read_palettes]
    raises. *)
Theorem read_palettes_incomplete members slot fields s :
  slot ∈ ["latte"; "frappe"; "macchiato"; "mocha"] ->
  member slot members = Some (JObj fields) ->
  (exists field, field ∈ ["name"; "dark"; "colors"] /\ member field fields = None)
  \/ (exists colors name cfields field,
        member "colors" fields = Some (JObj colors) /\
        (name, JObj cfields) ∈ colors /\
        field ∈ ["hex"; "accent"] /\ member field cfields = None) ->
  raises (read_palettes (JObj members)) s.
Proof.
  intros Hslot Hfields Hbad.
  apply (decode_Palettes_slot members slot (JObj fields)); [assumption..|].
  intros s'. destruct Hbad as [(field & Hfield & Hnone)|Hbad].
  - eapply decode_Palette_incomplete; eassumption.
  - destruct Hbad as (colors & name & cfields & field & Hc & Hin & Hfield & Hnone).
    eapply decode_Palette_incomplete_color; eassumption.
Qed.


(** ** What the encoder does *)

(** X14. Without [detailed] the encoder shows the names and the [hex] of the
    colours and nothing else of them: two stores with the same palette
    objects whose colours have the same [hex], whatever their accent flags
    and working colours, encode to the same document. *)
Theorem JsonEncoder_encode_hex_only p s s' :
  Forall (variant_ok s) (variants p) ->
  palette_objs s' = palette_objs s ->
  (forall r, option_Forall2 (fun c c' => Color.hex c' = Color.hex c)
                            (color_objs s !! r) (color_objs s' !! r)) ->
  exists j, JsonEncoder_encode false p s = Some (s, ok j)
            /\ JsonEncoder_encode false p s' = Some (s', ok j).
Proof.
  intros Hok Hp Hhex. exists (flat_document s p).
  split; [apply JsonEncoder_encode_flat; exact Hok|].
  rewrite <- (flat_document_ext s s' p Hp).
  - apply JsonEncoder_encode_flat. eapply Forall_impl; [exact Hok|].
    intros v (q & Hq & Hnd & Hcolors). exists q.
    split; [rewrite Hp; exact Hq|]. split; [exact Hnd|].
    intros k r Hin. destruct (Hcolors k r Hin) as [c Hc].
    specialize (Hhex r). rewrite Hc in Hhex. inversion Hhex. eauto.
  - intros r. destruct (Hhex r); simpl; congruence.
Qed.

(** ** From the document to the tree *)

Lemma runs_and {A} (m : M A) s (Q1 Q2 : store -> result A -> Prop) :
  runs m s Q1 -> runs m s Q2 -> runs m s (fun s' r => Q1 s' r /\ Q2 s' r).
Proof.
  intros (s1 & r1 & H1 & HQ1) (s2 & r2 & H2 & HQ2).
  rewrite H1 in H2. injection H2 as <- <-. exists s1, r1. auto.
Qed.

Lemma colors_from_grows s s' members items :
  color_objs s ⊆ color_objs s' ->
  colors_from s members items -> colors_from s' members items.
Proof.
  intros Hsub Hfrom. eapply Forall2_impl; [exact Hfrom|].
  intros kj kx (Hk & c & Hc & Hj). split; [exact Hk|].
  exists c. split; [|exact Hj]. eapply lookup_weaken; eassumption.
Qed.

Lemma slot_from_grows s s' members slot v :
  grows s s' -> slot_from s members slot v -> slot_from s' members slot v.
Proof.
  intros (_ & _ & Hc & Hp) (j & p & Hj & Hv & Hfrom). exists j, p.
  split; [exact Hj|]. split; [eapply lookup_weaken; eassumption|].
  destruct Hfrom as (fields & nv & dv & ms & items & Hf).
  exists fields, nv, dv, ms, items.
  destruct Hf as (H1 & H2 & H3 & H4 & H5 & H6 & H7 & H8).
  repeat (split; [assumption|]).
  split; [eapply colors_from_grows; eassumption|exact H8].
Qed.

Lemma decode_Color_from j s :
  runs (decode_Color j) s
       (fun s' r => forall x, r = ok x ->
                              exists c, color_objs s' !! x = Some c /\ color_from j c).
Proof.
  destruct j; try (apply runs_lift; discriminate). unfold decode_Color.
  apply runs_bind, runs_required; [|discriminate].
  intros hv Hhv. apply runs_lift.
  destruct (decode_str hv) as [e|hex] eqn:Hhex; [discriminate|].
  apply runs_bind, runs_required; [|discriminate].
  intros av Hav. apply runs_lift.
  destruct (decode_bool av) as [e|accent] eqn:Haccent; [discriminate|].
  destruct (member "color" members); [apply runs_lift; discriminate|].
  set (r := fresh (dom (color_objs s))).
  set (c := Color.mk hex accent _DEFAULT_COLOR).
  set (s1 := mkStore (edit_objs s) (<[r := c]> (color_objs s))
                     (palette_objs s) (written s)).
  assert (Hnew : new_color c s = Some (s1, ok r)) by reflexivity.
  assert (Hc : color_objs s1 !! r = Some c) by apply lookup_insert_eq.
  unfold runs. rewrite (bind_ok _ _ _ _ _ Hnew).
  unfold mbind, M_bind. rewrite (in_post_init_runs r c s1 Hc).
  destruct (rbind _ _) as [e|k].
  - eexists _, _. split; [reflexivity|discriminate].
  - eexists _, _. split; [reflexivity|]. intros x [= <-]. simpl.
    rewrite lookup_insert_eq. eexists. split; [reflexivity|].
    exists members, hv, av. auto.
Qed.

Lemma decode_items_from (members : list (string * json)) s :
  runs (map_M (fun '(k, v) => c ← decode_Color v; mret (k, c)) members) s
       (fun s' r => forall items : list (string * ref),
                      r = ok items -> colors_from s' members items).
Proof.
  revert s. induction members as [|[k v] members IH]; intros s; simpl.
  - apply runs_ret. intros items [= <-]. constructor.
  - apply runs_bind, runs_bind.
    eapply runs_mono; [apply decode_Color_from|].
    intros s1 [e|x] Hx; [discriminate|].
    apply runs_ret, runs_bind.
    eapply runs_mono; [apply (runs_and _ _ _ _ (decode_items_runs members s1) (IH s1))|].
    intros s2 [e|items] [[Hg _] Hitems]; [discriminate|].
    apply runs_ret. intros items' [= <-].
    destruct (Hx x eq_refl) as (c & Hc & Hj).
    constructor; [|apply Hitems; reflexivity].
    split; [reflexivity|]. exists c. split; [|exact Hj].
    destruct Hg as (_ & _ & Hsub & _). eapply lookup_weaken; eassumption.
Qed.

Lemma decode_Palette_from j s :
  runs (decode_Palette j) s
       (fun s' r => forall v, r = ok v ->
                              exists p, palette_objs s' !! v = Some p /\
                                        variant_from s' j p).
Proof.
  destruct j as [| | | | |fields]; try (apply runs_lift; discriminate).
  unfold decode_Palette.
  apply runs_bind, runs_required; [|discriminate].
  intros nv Hnv. apply runs_lift.
  destruct (decode_str nv) as [e|name] eqn:Hname; [discriminate|].
  apply runs_bind, runs_required; [|discriminate].
  intros dv Hdv. apply runs_lift.
  destruct (decode_bool dv) as [e|dark] eqn:Hdark; [discriminate|].
  apply runs_bind, runs_required; [|discriminate].
  intros cv Hcv.
  destruct cv as [| | | | |members]; try (apply runs_lift; discriminate).
  unfold decode_colors. apply runs_bind.
  eapply runs_mono; [apply decode_items_from|].
  intros s1 [e|items] Hitems; [discriminate|].
  apply runs_ret. eexists _, _. split; [reflexivity|].
  intros v [= <-]. simpl. rewrite lookup_insert_eq.
  eexists. split; [reflexivity|].
  exists fields, nv, dv, members, items. simpl.
  split; [reflexivity|]. split; [exact Hnv|]. split; [exact Hname|].
  split; [exact Hdv|]. split; [exact Hdark|]. split; [exact Hcv|].
  split; [exact (Hitems items eq_refl)|reflexivity].
Qed.


Lemma decode_slot_from slot members s :
  runs (required slot members decode_Palette) s
       (fun s' r => grows s s' /\
                    forall v, r = ok v -> slot_from s' members slot v).
Proof.
  apply runs_required; [|intros _ e; split; [apply grows_refl|discriminate]].
  intros j Hj.
  eapply runs_mono;
    [apply (runs_and _ _ _ _ (decode_Palette_runs j s) (decode_Palette_from j s))|].
  intros s' r [[Hg _] Hfrom]. split; [exact Hg|].
  intros v Hv. destruct (Hfrom v Hv) as (p & Hp & Hvar). exists j, p. auto.
Qed.

(** X15. What a decoded palette set holds. When [read_palettes] returns a
    palette set, the document is an object; [version] is its member
    [version], decoded; and each variant is the member of its slot, decoded:
    [name] and [dark] are the decoded members of these names, and the
    mapping is the dict of the members of [colors], name by name and in
    their order, each colour with the decoded [hex] and [accent] of its
    member. *)
Theorem read_palettes_from_document input_ s :
  runs (read_palettes input_) s
       (fun s' r =>
          forall ps, r = ok ps ->
            exists members vv,
              input_ = JObj members
              /\ member "version" members = Some vv
              /\ decode_str vv = ok (Palettes.version ps)
              /\ forall slot v, (slot, v) ∈ Palettes.palettes ps ->
                                slot_from s' members slot v).
Proof.
  destruct input_ as [| | | | |members]; try (apply runs_lift; discriminate).
  unfold read_palettes, decode_Palettes.
  apply runs_bind, runs_required; [|discriminate].
  intros vv Hvv. apply runs_lift.
  destruct (decode_str vv) as [e|version] eqn:Hversion; [discriminate|].
  apply runs_bind. eapply runs_mono; [apply decode_slot_from|].
  intros s1 [e|latte] [Hg1 H1]; [discriminate|].
  apply runs_bind. eapply runs_mono; [apply decode_slot_from|].
  intros s2 [e|frappe] [Hg2 H2]; [discriminate|].
  apply runs_bind. eapply runs_mono; [apply decode_slot_from|].
  intros s3 [e|macchiato] [Hg3 H3]; [discriminate|].
  apply runs_bind. eapply runs_mono; [apply decode_slot_from|].
  intros s4 [e|mocha] [Hg4 H4]; [discriminate|].
  apply runs_ret. intros ps [= <-]. exists members, vv.
  split; [reflexivity|]. split; [exact Hvv|]. split; [exact Hversion|].
  intros slot v Hin.
  change (Palettes.palettes (Palettes.mk version latte frappe macchiato mocha))
    with [("latte", latte); ("frappe", frappe); ("macchiato", macchiato);
          ("mocha", mocha)] in Hin.
  repeat (apply elem_of_cons in Hin as [[= -> ->]|Hin]);
    [| | | |apply elem_of_nil in Hin as []].
  - eapply slot_from_grows; [exact Hg4|]. eapply slot_from_grows; [exact Hg3|].
    eapply slot_from_grows; [exact Hg2|]. apply H1. reflexivity.
  - eapply slot_from_grows; [exact Hg4|]. eapply slot_from_grows; [exact Hg3|].
    apply H2. reflexivity.
  - eapply slot_from_grows; [exact Hg4|]. apply H3. reflexivity.
  - apply H4. reflexivity.
Qed.

End Reasoning.

(** ** The laws at work, with the engine of the examples *)

#[local] Existing Instance Tiny.engine.
#[local] Existing Instance Tiny.decoder.

(** On the light variant the rule that adds [0.125] to the lightness takes it
    away; on a dark variant it adds it. *)
Example lighter_on_latte :
  Tiny.look 1%positive
            (Palette_edit 1%positive Tiny.conf (Tiny.with_rule Tiny.lighter))
  = Some (Some (Color.mk "#ff0000" true
                         (Tiny.mk "#ff0000" "okhsl" [("lightness", (-0.125)%float)])),
          ok tt).
Proof. vm_compute. reflexivity. Qed.

Example lighter_on_mocha :
  Tiny.look 4%positive
            (Palette_edit 4%positive Tiny.conf (Tiny.with_rule Tiny.lighter))
  = Some (Some (Color.mk "#ff0000" true
                         (Tiny.mk "#ff0000" "okhsl" [("lightness", 0.125%float)])),
          ok tt).
Proof. vm_compute. reflexivity. Qed.

(** On the light variant the rule that multiplies the lightness by zero
    divides by zero, and [Palette.edit] ends with the exception; the colour
    was taken to the working space and is otherwise as it was. *)
Example zero_times_on_latte :
  Tiny.look 1%positive
            (Palette_edit 1%positive Tiny.conf (Tiny.with_rule Tiny.zero_times))
  = Some (Some Tiny.red, raise ZeroDivisionError).
Proof. vm_compute. reflexivity. Qed.

Lemma Tiny_palette_ok : palette_ok Tiny.decoded 1%positive.
Proof.
  exists Tiny.latte. split; [reflexivity|].
  intros k r Hin. apply list_elem_of_singleton in Hin as [= -> ->].
  exists Tiny.red. reflexivity.
Qed.

Lemma Tiny_rules_ok : rules_ok Tiny.decoded Tiny.conf.
Proof.
  intros x Hx. apply list_elem_of_singleton in Hx as ->.
  exists Tiny.rule. reflexivity.
Qed.

Lemma Palette_edit_inverse_flag_witness :
  palette_objs Tiny.decoded !! 1%positive = Some Tiny.latte
  /\ rules_ok Tiny.decoded Tiny.conf
  /\ ends (Palette_edit_edits 1%positive Tiny.conf) Tiny.decoded.
Proof.
  split; [reflexivity|]. split; [exact Tiny_rules_ok|].
  eapply runs_mono.
  - apply (Palette_edit_inverse_flag 1%positive Tiny.latte Tiny.conf Tiny.decoded);
      [reflexivity|exact Tiny_rules_ok].
  - intros s' r _. exact I.
Defined.

Lemma Palette_edit_keeps_rules_witness :
  palette_ok Tiny.decoded 1%positive
  /\ rules_ok Tiny.decoded Tiny.conf
  /\ ends (Palette_edit 1%positive Tiny.conf) Tiny.decoded.
Proof.
  split; [exact Tiny_palette_ok|]. split; [exact Tiny_rules_ok|].
  eapply runs_mono.
  - apply (Palette_edit_keeps_rules 1%positive Tiny.conf Tiny.decoded
             Tiny_palette_ok Tiny_rules_ok).
  - intros s' r _. exact I.
Defined.

Lemma Palette_edit_keeps_names_witness :
  palette_ok Tiny.decoded 1%positive
  /\ rules_ok Tiny.decoded Tiny.conf
  /\ ends (Palette_edit 1%positive Tiny.conf) Tiny.decoded.
Proof.
  split; [exact Tiny_palette_ok|]. split; [exact Tiny_rules_ok|].
  eapply runs_mono.
  - apply (Palette_edit_keeps_names 1%positive Tiny.conf Tiny.decoded
             Tiny_palette_ok Tiny_rules_ok).
  - intros s' r _. exact I.
Defined.

Lemma Tiny_variant_ok v :
  v ∈ [1; 2; 3; 4]%positive -> variant_ok Tiny.decoded v.
Proof.
  intros Hv.
  repeat (apply elem_of_cons in Hv as [->|Hv]);
    [exists Tiny.latte|exists Tiny.frappe|exists Tiny.macchiato|exists Tiny.mocha|
     apply elem_of_nil in Hv; destruct Hv];
    (split; [reflexivity|]; split; [apply NoDup_singleton|]);
    intros k r Hin; apply list_elem_of_singleton in Hin as [= -> ->];
    exists Tiny.red; reflexivity.
Qed.

Lemma Tiny_variants_ok : Forall (variant_ok Tiny.decoded) (variants Tiny.palettes).
Proof. apply Forall_forall. exact Tiny_variant_ok. Qed.

Lemma Tiny_no_selector x :
  x ∈ Config.edits Tiny.conf -> no_selector Tiny.decoded x.
Proof.
  intros Hx. apply list_elem_of_singleton in Hx as ->.
  exists Tiny.rule. repeat split.
Qed.

Lemma Tiny_round_trip r :
  r ∈ colors_of Tiny.decoded (variants Tiny.palettes) ->
  exists c, color_objs Tiny.decoded !! r = Some c /\ round_trip Tiny.conf c /\
            (true = true -> prints_same Tiny.conf c).
Proof.
  change (colors_of Tiny.decoded (variants Tiny.palettes))
    with [1; 2; 3; 4]%positive.
  intros Hr.
  repeat (apply elem_of_cons in Hr as [->|Hr]);
    [| | | |apply elem_of_nil in Hr; destruct Hr];
    (exists Tiny.red; split; [reflexivity|]);
    (split; [eexists _, _; repeat split|reflexivity]).
Qed.

Lemma Tiny_colors_NoDup : NoDup (colors_of Tiny.decoded (variants Tiny.palettes)).
Proof.
  change (colors_of Tiny.decoded (variants Tiny.palettes))
    with [1; 2; 3; 4]%positive.
  apply (bool_decide_unpack _). vm_compute. exact I.
Qed.

Lemma main_snapshots_no_selector_witness :
  Forall (variant_ok Tiny.decoded) (variants Tiny.palettes)
  /\ ends (main_snapshots true Tiny.conf Tiny.palettes) Tiny.decoded.
Proof.
  split; [exact Tiny_variants_ok|].
  eapply runs_mono.
  - apply (proj2 (main_snapshots_no_selector true Tiny.conf Tiny.palettes
                    Tiny.decoded Tiny_no_selector)
             Tiny_variants_ok Tiny_colors_NoDup Tiny_round_trip).
  - intros s' r _. exact I.
Defined.

(** C6, as the specification states it, fails: the one rule has neither selector, and
    the colour of the document is written [#FF0000]. The original document
    has the string as it was read, the customized one as the engine prints
    it, in lower case. *)
Lemma main_no_selector_changes_output :
  exists s' original customized,
    main (Tiny.document "#FF0000") Tiny.conf false Tiny.configured
    = Some (s', ok tt)
    /\ no_selector Tiny.configured 1%positive
    /\ written s' = [("original", original); ("customized", customized)]
    /\ original <> customized.
Proof.
  eexists _, _, _. split; [vm_compute; reflexivity|].
  split; [exists Tiny.rule; repeat split|].
  split; [reflexivity|]. discriminate.
Qed.

Lemma to_hex_appends_alpha_witness :
  Forall (variant_ok Tiny.decoded) (variants Tiny.palettes)
  /\ ends (JsonEncoder__palettes false Tiny.palettes) Tiny.decoded.
Proof.
  split; [exact Tiny_variants_ok|].
  eapply runs_mono.
  - apply (proj2 (to_hex_appends_alpha Tiny.decoded) Tiny.palettes Tiny_variants_ok).
  - intros s' r _. exact I.
Defined.

Lemma palettes_four_slots_witness :
  member "mocha"
         match Tiny.document_without_mocha "#ff0000" with
         | JObj members => members
         | _ => []
         end = None
  /\ raises (read_palettes (Tiny.document_without_mocha "#ff0000")) Tiny.empty.
Proof.
  split; [reflexivity|].
  apply (proj2 (proj2 palettes_four_slots) _ "mocha" Tiny.empty).
  - repeat first [left | right].
  - reflexivity.
Defined.

(** ** The loops of [Palette.edit] at work *)

Lemma Tiny_latte_colors s :
  color_objs s = color_objs Tiny.decoded ->
  forall name r, (name, r) ∈ Palette.colors Tiny.latte ->
                 is_Some (color_objs s !! r).
Proof.
  intros Hs name r Hin. apply list_elem_of_singleton in Hin as [= -> ->].
  rewrite Hs. exists Tiny.red. reflexivity.
Qed.

Lemma first_loop_keeps_hex_witness :
  (forall x, x ∈ [1%positive] -> is_Some (edit_objs Tiny.decoded !! x))
  /\ ends (for_each (dict_items (Palette.colors Tiny.latte))
                    (fun '(name, color) =>
                       Palette_edit_color Tiny.conf [1%positive] name color))
          Tiny.decoded.
Proof.
  split; [exact Tiny_rules_ok|].
  eapply runs_mono.
  - apply (first_loop_keeps_hex Tiny.conf [1%positive] (Palette.colors Tiny.latte)
             Tiny.decoded Tiny_rules_ok (Tiny_latte_colors _ eq_refl)).
  - intros s' r _. exact I.
Defined.

Lemma Tiny_rules_at e :
  rules_at (Tiny.with_rule e) (Config.edits Tiny.conf) [e].
Proof. repeat constructor. Qed.

Lemma Palette_edit_raises_uncommitted_witness :
  worked Tiny.conf (copies Tiny.conf Tiny.latte [Tiny.zero_times]) "red" Tiny.red
  = raise ZeroDivisionError
  /\ raises (Palette_edit 1%positive Tiny.conf) (Tiny.with_rule Tiny.zero_times).
Proof.
  assert (Hw : worked Tiny.conf (copies Tiny.conf Tiny.latte [Tiny.zero_times])
                      "red" Tiny.red = raise ZeroDivisionError)
    by (vm_compute; reflexivity).
  split; [exact Hw|].
  eapply runs_mono.
  - apply (Palette_edit_raises_uncommitted (CE := Tiny.engine) 1%positive Tiny.latte Tiny.conf
             [Tiny.zero_times] "red" 1%positive Tiny.red ZeroDivisionError
             (Tiny.with_rule Tiny.zero_times)).
    + reflexivity.
    + apply NoDup_singleton.
    + apply Tiny_latte_colors. reflexivity.
    + apply Tiny_rules_at.
    + left.
    + reflexivity.
    + exact Hw.
  - intros s' r [He _]. exact He.
Defined.

Lemma Tiny_lighter_customized name r :
  (name, r) ∈ Palette.colors Tiny.latte ->
  exists c c', color_objs (Tiny.with_rule Tiny.lighter) !! r = Some c /\
               customized Tiny.conf (copies Tiny.conf Tiny.latte [Tiny.lighter])
                          name c = ok c'.
Proof.
  intros Hin. apply list_elem_of_singleton in Hin as [= -> ->].
  eexists _, _. split; [reflexivity|]. vm_compute. reflexivity.
Qed.

Lemma Palette_edit_customizes_witness :
  rules_at (Tiny.with_rule Tiny.lighter) (Config.edits Tiny.conf) [Tiny.lighter]
  /\ runs (Palette_edit 1%positive Tiny.conf) (Tiny.with_rule Tiny.lighter)
          (fun _ res => res = ok tt).
Proof.
  split; [apply Tiny_rules_at|].
  eapply runs_mono.
  - apply (Palette_edit_customizes 1%positive Tiny.latte Tiny.conf [Tiny.lighter]
             (Tiny.with_rule Tiny.lighter)).
    + reflexivity.
    + apply NoDup_singleton.
    + apply Tiny_rules_at.
    + exact Tiny_lighter_customized.
  - intros s' r [He _]. exact He.
Defined.

Lemma Tiny_for_blue_unselected :
  unselected (Tiny.with_rule Tiny.for_blue) (Config.edits Tiny.conf)
             (Palette.colors Tiny.latte).
Proof.
  intros x Hx. apply list_elem_of_singleton in Hx as ->.
  exists Tiny.for_blue. split; [reflexivity|].
  intros name r c Hin Hc. apply list_elem_of_singleton in Hin as [= -> ->].
  assert (Hred : Some Tiny.red = Some c) by exact Hc.
  injection Hred as <-.
  reflexivity.
Qed.

Lemma Palette_edit_unselected_witness :
  unselected (Tiny.with_rule Tiny.for_blue) (Config.edits Tiny.conf)
             (Palette.colors Tiny.latte)
  /\ same_outcome (Palette_edit 1%positive Tiny.conf (Tiny.with_rule Tiny.for_blue))
                  (Palette_edit 1%positive (without_rules Tiny.conf)
                                (Tiny.with_rule Tiny.for_blue)).
Proof.
  split; [exact Tiny_for_blue_unselected|].
  apply (Palette_edit_unselected 1%positive Tiny.latte Tiny.conf
           (Tiny.with_rule Tiny.for_blue) eq_refl Tiny_for_blue_unselected).
Defined.

(** ** Decoding and encoding at work *)

(** The document of the examples decodes: four variants, four colours. *)
Example read_palettes_decodes :
  exists s',
    read_palettes (Tiny.document "#FF0000") Tiny.empty = Some (s', ok Tiny.palettes)
    /\ colors_of s' (variants Tiny.palettes) = [1; 2; 3; 4]%positive
    /\ color_objs s' !! 1%positive
       = Some (Color.mk "#FF0000" true (Tiny.mk "#ff0000" "okhsl" [])).
Proof. eexists. split; [vm_compute; reflexivity|]. split; reflexivity. Qed.

Lemma Palette_edit_local_witness :
  rules_ok Tiny.decoded Tiny.conf
  /\ ends (Palette_edit 1%positive Tiny.conf) Tiny.decoded.
Proof.
  split; [exact Tiny_rules_ok|].
  eapply runs_mono.
  - apply (Palette_edit_local 1%positive Tiny.latte Tiny.conf Tiny.decoded eq_refl
             (Tiny_latte_colors _ eq_refl) Tiny_rules_ok).
  - intros s' r _. exact I.
Defined.

Lemma read_palettes_incomplete_witness :
  raises (read_palettes Tiny.document_without_dark) Tiny.empty
  /\ raises (read_palettes Tiny.document_without_accent) Tiny.empty.
Proof.
  split.
  - eapply (read_palettes_incomplete _ "latte" _ Tiny.empty);
      [left|reflexivity|].
    left. exists "dark". split; [right; left|reflexivity].
  - eapply (read_palettes_incomplete _ "latte" _ Tiny.empty);
      [left|reflexivity|].
    right. eexists _, "red", _, "accent".
    split; [reflexivity|]. split; [left|]. split; [right; left|reflexivity].
Defined.

Lemma Tiny_repainted_hex r :
  option_Forall2 (fun c c' : Color.t Tiny.colour => Color.hex c' = Color.hex c)
                 (color_objs Tiny.decoded !! r) (color_objs Tiny.repainted !! r).
Proof.
  unfold Tiny.decoded, Tiny.repainted. simpl.
  do 3 (match goal with
        | |- context [<[?k := _]> _ !! r] =>
            destruct (decide (r = k)) as [->|?];
            [rewrite !lookup_insert_eq; constructor; reflexivity
            |rewrite !(lookup_insert_ne _ k r) by congruence]
        end).
  destruct (decide (r = 4%positive)) as [->|?].
  - rewrite !lookup_singleton_eq. constructor. reflexivity.
  - rewrite !lookup_singleton_ne by congruence. constructor.
Qed.

Lemma JsonEncoder_encode_hex_only_witness :
  exists j, JsonEncoder_encode false Tiny.palettes Tiny.decoded
            = Some (Tiny.decoded, ok j)
            /\ JsonEncoder_encode false Tiny.palettes Tiny.repainted
               = Some (Tiny.repainted, ok j).
Proof.
  apply (JsonEncoder_encode_hex_only Tiny.palettes Tiny.decoded Tiny.repainted
           Tiny_variants_ok eq_refl Tiny_repainted_hex).
Defined.

(** The document of the examples decodes, in the empty store. *)
Lemma Tiny_decodes :
  exists s', read_palettes (Tiny.document "#ff0000") Tiny.empty
             = Some (s', ok Tiny.palettes).
Proof. eexists. vm_compute. reflexivity. Qed.

Lemma read_palettes_tree_witness :
  exists s', read_palettes (Tiny.document "#ff0000") Tiny.empty
             = Some (s', ok Tiny.palettes)
             /\ Forall (variant_ok s') (variants Tiny.palettes)
             /\ NoDup (colors_of s' (variants Tiny.palettes)).
Proof.
  destruct Tiny_decodes as [s0 H0].
  destruct (read_palettes_tree (Tiny.document "#ff0000") Tiny.empty)
    as (s' & r & Hrun & Hpost).
  rewrite H0 in Hrun. injection Hrun as <- <-.
  exists s0. split; [exact H0|].
  destruct (Hpost Tiny.palettes eq_refl) as (Hok & _ & Hnd & _). auto.
Defined.

Lemma read_palettes_constructed_witness :
  exists s', read_palettes (Tiny.document "#ff0000") Tiny.empty
             = Some (s', ok Tiny.palettes)
             /\ forall x, x ∈ colors_of s' (variants Tiny.palettes) ->
                          exists c, color_objs s' !! x = Some c /\ constructed c.
Proof.
  destruct Tiny_decodes as [s0 H0].
  destruct (read_palettes_constructed (Tiny.document "#ff0000") Tiny.empty)
    as (s' & r & Hrun & Hpost).
  rewrite H0 in Hrun. injection Hrun as <- <-.
  exists s0. split; [exact H0|]. exact (Hpost Tiny.palettes eq_refl).
Defined.

Lemma read_palettes_from_document_witness :
  exists s', read_palettes (Tiny.document "#ff0000") Tiny.empty
             = Some (s', ok Tiny.palettes)
             /\ forall slot v, (slot, v) ∈ Palettes.palettes Tiny.palettes ->
                  exists members,
                    Tiny.document "#ff0000" = JObj members
                    /\ slot_from s' members slot v.
Proof.
  destruct Tiny_decodes as [s0 H0].
  destruct (read_palettes_from_document (Tiny.document "#ff0000") Tiny.empty)
    as (s' & r & Hrun & Hpost).
  rewrite H0 in Hrun. injection Hrun as <- <-.
  exists s0. split; [exact H0|]. intros slot v Hin.
  destruct (Hpost Tiny.palettes eq_refl) as (members & vv & Hdoc & _ & _ & Hslots).
  exists members. split; [exact Hdoc|]. apply Hslots, Hin.
Defined.

